(** * voicebox-pytorch: a shallow embedding of [voicebox_pytorch.py]

    Tensors of floats are modelled over the real numbers (exact arithmetic),
    as nested lists: a vector along the feature axis is a [list R], a
    sequence [[N, D]] a list of vectors, a batch [[B, N, D]] a list of
    sequences.  Python integers are [Z], sizes and indices [nat].  Calls
    that can raise return a [result].  The modules of [torch.nn] and the
    [Attention] block built on the external [Attend] module are parameters
    of the model (the fields of [torch_modules]); the code of this
    repository is translated function by function. *)

From Stdlib Require Import Reals Lra Lia List ZArith Bool PeanoNat.
Import ListNotations.

Open Scope R_scope.

(** ** Helper functions *)

(** [exists(val)]: [val is not None]. *)
Definition exists_ {A : Type} (val : option A) : bool :=
  match val with Some _ => true | None => false end.

(** [default(val, d)]. *)
Definition default {A : Type} (val : option A) (d : A) : A :=
  match val with Some v => v | None => d end.

(** [divisible_by(num, den)]: [(num % den) == 0], Python's floored [%]. *)
Definition divisible_by (num den : Z) : bool := (num mod den =? 0)%Z.

(** [is_odd(n)]. *)
Definition is_odd (n : Z) : bool := negb (divisible_by n 2).

(** ** Exceptions and results *)

Inductive exn : Type :=
| AssertionError   (* a failed [assert] of this repository *)
| IndexError       (* [pop] from an empty list, embedding index out of range *)
| ShapeError       (* torch / einops refusing incompatible shapes *)
| TypeError.       (* a [None] where a tensor is needed *)

Inductive result (A : Type) : Type :=
| Ok (a : A)
| Err (e : exn).
Arguments Ok {A} a.
Arguments Err {A} e.

Definition bind {A B : Type} (r : result A) (k : A -> result B) : result B :=
  match r with Ok a => k a | Err e => Err e end.

Notation "x <- r ;; k" := (bind r (fun x => k))
  (at level 61, r at next level, right associativity).

Definition assert_ (b : bool) : result unit :=
  if b then Ok tt else Err AssertionError.

(** ** Tensors *)

Definition vec := list R.
Definition tensor2 := list vec.
Definition tensor3 := list tensor2.

(** Element-wise combination of two lists (shapes agree where torch
    accepts the operation without broadcasting). *)
Fixpoint map2 {A B C : Type} (f : A -> B -> C) (l : list A) (m : list B) : list C :=
  match l, m with
  | a :: l', b :: m' => f a b :: map2 f l' m'
  | _, _ => []
  end.

Definition sum (l : list R) : R := fold_right Rplus 0 l.

(** Mean of a list; torch gives NaN on an empty one, where this is [0 / 0]. *)
Definition mean (l : list R) : R := sum l / INR (length l).

(** [x.shape[-1]], [x.shape[-2]] and [x.shape[0]] of a [[B, N, D]] tensor.  An
    empty axis hides the sizes of the axes below it, which then read 0. *)
Definition shape_last (t : tensor3) : nat := length (hd [] (hd [] t)).
Definition shape_seq (t : tensor3) : nat := length (hd [] t).
Definition shape_batch (t : tensor3) : nat := length t.

(** [t] has shape [[B, N, D]]. *)
Definition shaped2 (N D : nat) (r : tensor2) : Prop :=
  length r = N /\ Forall (fun v : vec => length v = D) r.
Definition shaped (B N D : nat) (t : tensor3) : Prop :=
  length t = B /\ Forall (shaped2 N D) t.

Definition vadd (a b : vec) : vec := map2 Rplus a b.
Definition tadd (a b : tensor3) : tensor3 := map2 (map2 vadd) a b.

(** ** Tensor helpers *)

(** [prob_mask_like(shape, prob, device)] for a one-axis shape [[B]].  The
    uniform draws of the last branch are the input [rand], one per index. *)
Definition prob_mask_like (B : nat) (prob : R) (rand : nat -> R) : list bool :=
  if Req_dec_T prob 1 then repeat true B
  else if Req_dec_T prob 0 then repeat false B
  else map (fun b => if Rlt_dec (rand b) prob then true else false) (seq 0 B).

(** ** Sinusoidal positions *)

Module LearnedSinusoidalPosEmb.

Record t : Type := { weights : vec }.

(** [__init__(dim)]; [init_weights] stands for [torch.randn(half_dim)]. *)
Definition init (dim : Z) (init_weights : nat -> vec) : result t :=
  _ <- assert_ (divisible_by dim 2) ;;
  let half_dim := (dim / 2)%Z in
  Ok {| weights := init_weights (Z.to_nat half_dim) |}.

(** [forward(x)] for [x] of shape [[B]]: the result has shape
    [[B, 2 * half_dim]]. *)
Definition forward (self : t) (x : list R) : tensor2 :=
  map (fun xb =>
         let freqs := map (fun w => xb * w * 2 * PI) (weights self) in
         map sin freqs ++ map cos freqs) x.

End LearnedSinusoidalPosEmb.

(** ** Rotary positional embeddings *)

Module RotaryEmbedding.

Record t : Type := { inv_freq : vec }.

(** [torch.arange(0, dim, 2)] has [ceil(dim / 2)] entries [0, 2, 4, ...]. *)
Definition arange_step2 (dim : nat) : list nat :=
  map (fun i => (2 * i)%nat) (seq 0 (Nat.div2 (dim + 1))).

(** [__init__(dim, theta)]: [1.0 / (theta ** (arange(0, dim, 2) / dim))]. *)
Definition init (dim : nat) (theta : R) : t :=
  {| inv_freq := map (fun k => 1 / Rpower theta (INR k / INR dim)) (arange_step2 dim) |}.

(** [forward(seq_len)]: outer product of positions and inverse frequencies,
    repeated twice along the last axis. *)
Definition forward (self : t) (seq_len : nat) : tensor2 :=
  map (fun i =>
         let freqs := map (fun f => INR i * f) (inv_freq self) in
         freqs ++ freqs) (seq 0 seq_len).

End RotaryEmbedding.

(** [x.chunk(2, dim = -1)] followed by unpacking into two names: chunks of
    size [ceil(d / 2)]; a last axis of size below 2 gives fewer than two
    chunks and the unpacking raises. *)
Definition chunk2 (x : vec) : result (vec * vec) :=
  let c := Nat.div2 (length x + 1) in
  if (length x <? 2)%nat then Err ShapeError
  else Ok (firstn c x, skipn c x).

(** [rotate_half(x)] on one vector. *)
Definition rotate_half (x : vec) : result vec :=
  p <- chunk2 x ;;
  Ok (map Ropp (snd p) ++ fst p).

(** Element-wise product of two vectors of equal length (no axis of size 1
    is involved in the uses below, so broadcasting never applies). *)
Definition vmul (a b : vec) : result vec :=
  if (length a =? length b)%nat then Ok (map2 Rmult a b) else Err ShapeError.

Definition vadd_checked (a b : vec) : result vec :=
  if (length a =? length b)%nat then Ok (vadd a b) else Err ShapeError.

(** [apply_rotary_pos_emb(pos, t)] on one position: [pos] is a row of the
    angle table, [t] the vector at that position. *)
Definition apply_rotary_pos_emb_row (pos t : vec) : result vec :=
  a <- vmul t (map cos pos) ;;
  r <- rotate_half t ;;
  b <- vmul r (map sin pos) ;;
  vadd_checked a b.

(** [apply_rotary_pos_emb(pos, t)] for [pos] of shape [[N, d]] and [t] of
    shape [[N, d]]; leading axes of [t] are mapped over by the caller. *)
Fixpoint apply_rotary_pos_emb (pos t : tensor2) : result tensor2 :=
  match pos, t with
  | [], [] => Ok []
  | p :: pos', v :: t' =>
      r <- apply_rotary_pos_emb_row p v ;;
      rs <- apply_rotary_pos_emb pos' t' ;;
      Ok (r :: rs)
  | _, _ => Err ShapeError
  end.

(** The L2 norm of a vector. *)
Definition sum_sq (v : vec) : R := sum (map (fun x => x * x) v).
Definition l2norm (v : vec) : R := sqrt (sum_sq v).

(** ** The modules of [torch.nn] used by the repository *)

(** [nn.Linear(in_features, out_features)]: acts on the last axis, and
    refuses an input whose last axis is not [in_features]. *)
Record Linear : Type := {
  in_features : nat;
  out_features : nat;
  lin : vec -> vec
}.

Definition rows_have (d : nat) (x : tensor3) : bool :=
  forallb (forallb (fun v : vec => (length v =? d)%nat)) x.

Definition Linear_forward (l : Linear) (x : tensor3) : result tensor3 :=
  if rows_have (in_features l) x then Ok (map (map (lin l)) x) else Err ShapeError.

(** [nn.Embedding(num_embeddings, dim)]: a table lookup, an id outside the
    table raises. *)
Record Embedding : Type := {
  num_embeddings : nat;
  emb : nat -> vec
}.

Definition Embedding_forward (e : Embedding) (ids : list (list nat)) : result tensor3 :=
  if forallb (forallb (fun i => (i <? num_embeddings e)%nat)) ids
  then Ok (map (map (emb e)) ids) else Err IndexError.

(** The freshly created (later trained) modules a constructor obtains from
    torch and from the external [Attend]; the first argument of the
    per-layer ones is the layer index [ind]. *)
Record torch_modules : Type := {
  new_linear : nat -> vec -> vec;                     (* skip combiner of layer [ind] *)
  new_attention : nat -> tensor2 -> tensor3 -> tensor3; (* [Attention] of layer [ind]: rotary table, input *)
  new_feedforward : nat -> tensor3 -> tensor3;        (* [FeedForward] of layer [ind] *)
  new_to_embed : vec -> vec;
  new_phoneme_emb : nat -> vec;
  new_conv : tensor3 -> tensor3;                      (* Conv1d and GELU, between the two rearranges *)
  new_sinu_weights : nat -> vec                       (* [torch.randn(half_dim)] *)
}.

(** [torch.cat((a, b), dim = -1)] of two rank-3 tensors: the leading axes
    must agree. *)
Fixpoint cat_rows (a b : tensor2) : result tensor2 :=
  match a, b with
  | [], [] => Ok []
  | u :: a', v :: b' => r <- cat_rows a' b' ;; Ok ((u ++ v) :: r)
  | _, _ => Err ShapeError
  end.

Fixpoint cat_last (a b : tensor3) : result tensor3 :=
  match a, b with
  | [], [] => Ok []
  | u :: a', v :: b' =>
      r <- cat_rows u v ;; rs <- cat_last a' b' ;; Ok (r :: rs)
  | _, _ => Err ShapeError
  end.

(** ** Convolutional positional generating module *)

Module ConvPositionEmbed.

Record t : Type := { dw_conv1d : tensor3 -> tensor3 }.

Definition init (M : torch_modules) (dim kernel_size : Z) (groups : option Z) : result t :=
  _ <- assert_ (is_odd kernel_size) ;;
  let groups := default groups dim in
  Ok {| dw_conv1d := new_conv M |}.

Definition forward (self : t) (x : tensor3) : tensor3 := dw_conv1d self x.

End ConvPositionEmbed.

(** ** Transformer *)

Module Transformer.

Record layer : Type := {
  skip_combiner : option Linear;
  attn : tensor2 -> tensor3 -> tensor3;
  ff : tensor3 -> tensor3
}.

Record t : Type := {
  layers : list layer;
  rotary_emb : RotaryEmbedding.t
}.

(** The body of the constructor's loop for one [ind]. *)
Definition make_layer (M : torch_modules) (dim depth : Z) (ind : nat) : layer :=
  let layer := (Z.of_nat ind + 1)%Z in
  let has_skip := (layer >? depth / 2)%Z in
  {| skip_combiner :=
       if has_skip
       then Some {| in_features := Z.to_nat (dim * 2);
                    out_features := Z.to_nat dim;
                    lin := new_linear M ind |}
       else None;
     attn := new_attention M ind;
     ff := new_feedforward M ind |}.

(** [__init__(dim, depth, dim_head, ...)]. *)
Definition init (M : torch_modules) (dim depth : Z) (dim_head : nat) : result t :=
  _ <- assert_ (divisible_by depth 2) ;;
  Ok {| layers := map (make_layer M dim depth) (seq 0 (Z.to_nat depth));
        rotary_emb := RotaryEmbedding.init dim_head 10000 |}.

(** One iteration of the loop of [forward].  The list [skip_connects] is
    kept with Python's last element at its head: [append] is a cons and
    [pop()] takes the head. *)
Definition step (rotary : tensor2) (l : layer) (st : tensor3 * list tensor3)
  : result (tensor3 * list tensor3) :=
  let '(x, skip_connects) := st in
  st' <- match skip_combiner l with
         | None => Ok (x, x :: skip_connects)
         | Some combiner =>
             match skip_connects with
             | [] => Err IndexError
             | s :: rest =>
                 c <- cat_last x s ;;
                 x' <- Linear_forward combiner c ;;
                 Ok (x', rest)
             end
         end ;;
  let '(x, skip_connects) := st' in
  let x := tadd (attn l rotary x) x in
  let x := tadd (ff l x) x in
  Ok (x, skip_connects).

Fixpoint run (rotary : tensor2) (ls : list layer) (st : tensor3 * list tensor3)
  : result (tensor3 * list tensor3) :=
  match ls with
  | [] => Ok st
  | l :: ls' => st' <- step rotary l st ;; run rotary ls' st'
  end.

(** [forward(x)]. *)
Definition forward (self : t) (x : tensor3) : result tensor3 :=
  let rotary := RotaryEmbedding.forward (rotary_emb self) (shape_seq x) in
  st <- run rotary (layers self) (x, []) ;;
  Ok (fst st).

End Transformer.

(** ** Losses *)

Definition abs_err (a b : R) : R := Rabs (a - b).
Definition sq_err (a b : R) : R := (a - b) * (a - b).

(** [F.l1_loss(x, target, reduction = 'none')] and its squared sibling. *)
Definition elementwise (f : R -> R -> R) (x target : tensor3) : tensor3 :=
  map2 (map2 (map2 f)) x target.

Definition flatten (t : tensor3) : list R := concat (map (@concat R) t).

(** [F.l1_loss(x, target)] / [F.mse_loss(x, target)]: the mean over all
    elements. *)
Definition mean_loss (f : R -> R -> R) (x target : tensor3) : R :=
  mean (flatten (elementwise f x target)).

(** [loss.masked_fill(mask, 0.)] on a [[B, N]] tensor. *)
Definition masked_fill (loss : tensor2) (mask : list (list bool)) (v : R) : tensor2 :=
  map2 (map2 (fun l (m : bool) => if m then v else l)) loss mask.

(** [mask.sum(dim = -1)]: the number of [True] entries of each row. *)
Definition mask_sum (mask : list (list bool)) : list R :=
  map (fun row => INR (count_occ bool_dec row true)) mask.

(** [.clamp(min = m)]. *)
Definition clamp_min (m : R) (l : list R) : list R := map (fun v => Rmax v m) l.

Definition eps : R := 1 / 100000.

(** The masked branch shared by [DurationPredictor.forward] and
    [VoiceBox.forward]; [unreduced] is the loss with [reduction = 'none'].
    It also gives the per-example values before the final [mean]. *)
Definition masked_per_example (unreduced : tensor3) (mask : list (list bool)) : list R :=
  let loss := map (map mean) unreduced in              (* reduce 'b n d -> b n', 'mean' *)
  let loss := masked_fill loss mask 0 in
  let num := map sum loss in                           (* reduce 'b n -> b', 'sum' *)
  let den := clamp_min eps (mask_sum mask) in
  map2 Rdiv num den.

Definition masked_loss (f : R -> R -> R) (x target : tensor3) (mask : list (list bool)) : R :=
  mean (masked_per_example (elementwise f x target) mask).

(** What a forward pass returns: a scalar loss or the prediction. *)
Inductive value : Type :=
| Loss (r : R)
| Logits (t : tensor3).

Definition tmap (f : R -> R) (t : tensor3) : tensor3 := map (map (map f)) t.

(** Arithmetic on returned values; a scalar broadcasts over a tensor. *)
Definition value_lift2 (f : R -> R -> R) (a b : value) : value :=
  match a, b with
  | Loss r, Loss s => Loss (f r s)
  | Logits t, Logits u => Logits (elementwise f t u)
  | Loss r, Logits u => Logits (tmap (f r) u)
  | Logits t, Loss s => Logits (tmap (fun v => f v s) t)
  end.

Definition value_scale (a : value) (c : R) : value :=
  match a with
  | Loss r => Loss (r * c)
  | Logits t => Logits (tmap (fun v => v * c) t)
  end.

(** The body shared by the two [forward_with_cond_scale] methods, over the
    forward pass [fwd] as a function of [cond_drop_prob].  The first
    component lists the [cond_drop_prob] of every forward pass evaluated,
    in order. *)
Definition with_cond_scale (fwd : R -> result value) (cond_scale : R)
  : list R * result value :=
  match fwd 0 with
  | Err e => ([0], Err e)
  | Ok logits =>
      if Req_dec_T cond_scale 1 then ([0], Ok logits)
      else
        match fwd 1 with
        | Err e => ([0; 1], Err e)
        | Ok null_logits =>
            ([0; 1],
             Ok (value_lift2 Rplus null_logits
                   (value_scale (value_lift2 Rminus logits null_logits) cond_scale)))
        end
  end.

(** ** Classifier free guidance *)

(** The two [torch.where] of the forward passes, for a drop mask over the
    batch axis.  The batch axes must agree and the last axis of [cond] must
    be that of [null_cond] (broadcasting an axis of size 1 is left out). *)
Definition where_cond (mask : list bool) (null_cond : vec) (cond : tensor3) : tensor3 :=
  map2 (fun (m : bool) c => if m then map (fun _ => null_cond) c else c) mask cond.

Definition where_ids (mask : list bool) (null_id : nat) (ids : list (list nat))
  : list (list nat) :=
  map2 (fun (m : bool) r => if m then map (fun _ => null_id) r else r) mask ids.

Definition cfg_dropout (null_cond : vec) (null_phoneme_id : nat)
    (cond : tensor3) (phoneme_ids : list (list nat))
    (cond_drop_prob : R) (rand : nat -> R)
  : result (tensor3 * list (list nat)) :=
  if Rlt_dec 0 cond_drop_prob then
    let cond_drop_mask := prob_mask_like (shape_batch cond) cond_drop_prob rand in
    if negb (rows_have (length null_cond) cond) then Err ShapeError
    else if negb (length phoneme_ids =? length cond_drop_mask)%nat then Err ShapeError
    else Ok (where_cond cond_drop_mask null_cond cond,
             where_ids cond_drop_mask null_phoneme_id phoneme_ids)
  else Ok (cond, phoneme_ids).

(** ** Duration predictor and main denoising model *)

(** Constructor arguments common to both models. *)
Record config : Type := {
  num_phoneme_tokens : nat;
  dim_phoneme_emb : Z;
  dim : Z;
  depth : Z;
  dim_head : nat;
  conv_pos_embed_kernel_size : Z;
  conv_pos_embed_groups : option Z
}.

(** [torch.cat((x, phoneme_emb, cond), dim = -1)]. *)
Definition cat3 (x phoneme_emb cond : tensor3) : result tensor3 :=
  xp <- cat_last x phoneme_emb ;;
  cat_last xp cond.

Fixpoint mapM {A B : Type} (f : A -> result B) (l : list A) : result (list B) :=
  match l with
  | [] => Ok []
  | a :: l' => b <- f a ;; bs <- mapM f l' ;; Ok (b :: bs)
  end.

Module DurationPredictor.

Record t : Type := {
  null_phoneme_id : nat;
  to_phoneme_emb : Embedding;
  to_embed : Linear;
  null_cond : vec;
  conv_embed : ConvPositionEmbed.t;
  transformer : Transformer.t
}.

Definition init (M : torch_modules) (c : config) : result t :=
  conv <- ConvPositionEmbed.init M (dim c) (conv_pos_embed_kernel_size c)
            (conv_pos_embed_groups c) ;;
  tr <- Transformer.init M (dim c) (depth c) (dim_head c) ;;
  Ok {| null_phoneme_id := num_phoneme_tokens c;
        to_phoneme_emb := {| num_embeddings := num_phoneme_tokens c + 1;
                             emb := new_phoneme_emb M |};
        to_embed := {| in_features := Z.to_nat (dim c * 2 + dim_phoneme_emb c);
                       out_features := Z.to_nat (dim c);
                       lin := new_to_embed M |};
        null_cond := repeat 0 (Z.to_nat (dim c));
        conv_embed := conv;
        transformer := tr |}.

(** Lines 298 to 306 of [forward]: from the tensors left by the guidance
    dropout to the output of the transformer. *)
Definition predict (self : t) (x : tensor3) (phoneme_ids : list (list nat))
    (cond : tensor3) : result tensor3 :=
  phoneme_emb <- Embedding_forward (to_phoneme_emb self) phoneme_ids ;;
  embed <- cat3 x phoneme_emb cond ;;
  x <- Linear_forward (to_embed self) embed ;;
  let x := tadd (ConvPositionEmbed.forward (conv_embed self) x) x in
  Transformer.forward (transformer self) x.

(** The end of [forward], from the transformer's output. *)
Definition loss_of (x : tensor3) (target : option tensor3)
    (mask : option (list (list bool))) : result value :=
  match mask with
  | None =>
      match target with
      | Some target => Ok (Loss (mean_loss abs_err x target))
      | None => Err TypeError
      end
  | Some mask =>
      match target with
      | Some target => Ok (Loss (masked_loss abs_err x target mask))
      | None => Err TypeError
      end
  end.

Definition forward (self : t) (x : tensor3) (phoneme_ids : list (list nat))
    (cond : tensor3) (cond_drop_prob : R) (target : option tensor3)
    (mask : option (list (list bool))) (rand : nat -> R) : result value :=
  _ <- assert_ (shape_last cond =? shape_last x)%nat ;;
  cp <- cfg_dropout (null_cond self) (null_phoneme_id self) cond phoneme_ids
          cond_drop_prob rand ;;
  x <- predict self x (snd cp) (fst cp) ;;
  loss_of x target mask.

Definition forward_with_cond_scale_calls (self : t) (x : tensor3)
    (phoneme_ids : list (list nat)) (cond : tensor3) (target : option tensor3)
    (mask : option (list (list bool))) (rand : nat -> R) (cond_scale : R)
  : list R * result value :=
  with_cond_scale (fun p => forward self x phoneme_ids cond p target mask rand) cond_scale.

Definition forward_with_cond_scale (self : t) (x : tensor3)
    (phoneme_ids : list (list nat)) (cond : tensor3) (target : option tensor3)
    (mask : option (list (list bool))) (rand : nat -> R) (cond_scale : R)
  : result value :=
  snd (forward_with_cond_scale_calls self x phoneme_ids cond target mask rand cond_scale).

End DurationPredictor.

(** [pack((time_emb, x), 'b * d')]: [time_emb] of shape [[B, d]] becomes one
    position put before the [N] positions of [x]; [ps] records the
    position counts of the two parts. *)
Definition pack_time (time_emb : tensor2) (x : tensor3) : result (tensor3 * list nat) :=
  if ((length time_emb =? length x)%nat
      && rows_have (length (hd [] time_emb)) x)%bool
  then Ok (map2 cons time_emb x, [1%nat; shape_seq x])
  else Err ShapeError.

(** Split a list into consecutive parts of the given sizes, which must
    add up to its length. *)
Fixpoint split_sizes {A : Type} (sizes : list nat) (l : list A) : result (list (list A)) :=
  match sizes with
  | [] => match l with [] => Ok [] | _ => Err ShapeError end
  | n :: sizes' =>
      if (n <=? length l)%nat
      then rest <- split_sizes sizes' (skipn n l) ;; Ok (firstn n l :: rest)
      else Err ShapeError
  end.

(** [_, x = unpack(x, ps, 'b * d')]: the second of the two parts. *)
Definition unpack_second (x : tensor3) (ps : list nat) : result tensor3 :=
  mapM (fun row =>
          parts <- split_sizes ps row ;;
          match parts with
          | [_; p] => Ok p
          | _ => Err ShapeError
          end) x.

Module VoiceBox.

Record t : Type := {
  sinu_pos_emb : LearnedSinusoidalPosEmb.t;
  null_phoneme_id : nat;
  to_phoneme_emb : Embedding;
  to_embed : Linear;
  null_cond : vec;
  conv_embed : ConvPositionEmbed.t;
  transformer : Transformer.t
}.

Definition init (M : torch_modules) (c : config) : result t :=
  sinu <- LearnedSinusoidalPosEmb.init (dim c) (new_sinu_weights M) ;;
  conv <- ConvPositionEmbed.init M (dim c) (conv_pos_embed_kernel_size c)
            (conv_pos_embed_groups c) ;;
  tr <- Transformer.init M (dim c) (depth c) (dim_head c) ;;
  Ok {| sinu_pos_emb := sinu;
        null_phoneme_id := num_phoneme_tokens c;
        to_phoneme_emb := {| num_embeddings := num_phoneme_tokens c + 1;
                             emb := new_phoneme_emb M |};
        to_embed := {| in_features := Z.to_nat (dim c * 2 + dim_phoneme_emb c);
                       out_features := Z.to_nat (dim c);
                       lin := new_to_embed M |};
        null_cond := repeat 0 (Z.to_nat (dim c));
        conv_embed := conv;
        transformer := tr |}.

(** Lines 411 to 428 of [forward]. *)
Definition predict (self : t) (x : tensor3) (phoneme_ids : list (list nat))
    (cond : tensor3) (times : list R) : result tensor3 :=
  phoneme_emb <- Embedding_forward (to_phoneme_emb self) phoneme_ids ;;
  embed <- cat3 x phoneme_emb cond ;;
  x <- Linear_forward (to_embed self) embed ;;
  let x := tadd (ConvPositionEmbed.forward (conv_embed self) x) x in
  let time_emb := LearnedSinusoidalPosEmb.forward (sinu_pos_emb self) times in
  xp <- pack_time time_emb x ;;
  x <- Transformer.forward (transformer self) (fst xp) ;;
  unpack_second x (snd xp).

Definition loss_of (x : tensor3) (target : option tensor3)
    (mask : option (list (list bool))) : value :=
  match target with
  | None => Logits x
  | Some target =>
      match mask with
      | None => Loss (mean_loss sq_err x target)
      | Some mask => Loss (masked_loss sq_err x target mask)
      end
  end.

Definition forward (self : t) (x : tensor3) (phoneme_ids : list (list nat))
    (cond : tensor3) (times : list R) (cond_drop_prob : R)
    (target : option tensor3) (mask : option (list (list bool)))
    (rand : nat -> R) : result value :=
  _ <- assert_ (shape_last cond =? shape_last x)%nat ;;
  cp <- cfg_dropout (null_cond self) (null_phoneme_id self) cond phoneme_ids
          cond_drop_prob rand ;;
  x <- predict self x (snd cp) (fst cp) times ;;
  Ok (loss_of x target mask).

Definition forward_with_cond_scale_calls (self : t) (x : tensor3)
    (phoneme_ids : list (list nat)) (cond : tensor3) (times : list R)
    (target : option tensor3) (mask : option (list (list bool)))
    (rand : nat -> R) (cond_scale : R) : list R * result value :=
  with_cond_scale
    (fun p => forward self x phoneme_ids cond times p target mask rand) cond_scale.

Definition forward_with_cond_scale (self : t) (x : tensor3)
    (phoneme_ids : list (list nat)) (cond : tensor3) (times : list R)
    (target : option tensor3) (mask : option (list (list bool)))
    (rand : nat -> R) (cond_scale : R) : result value :=
  snd (forward_with_cond_scale_calls self x phoneme_ids cond times target mask rand
         cond_scale).

End VoiceBox.

(** ** The masked mean as the specification words it *)

(** The number of valid positions of each row: those the mask does not
    exclude ([False] entries). *)
Definition valid_count (mask : list (list bool)) : list R :=
  map (fun row => INR (count_occ bool_dec row false)) mask.

(** The masked loss of the specification: per-position loss averaged over
    the feature axis, zero where the mask is [True], summed per example,
    divided by the clamped count of valid positions, averaged over the
    batch. *)
Definition masked_loss_spec (f : R -> R -> R) (x target : tensor3)
    (mask : list (list bool)) : R :=
  let loss := masked_fill (map (map mean) (elementwise f x target)) mask 0 in
  mean (map2 Rdiv (map sum loss) (clamp_min eps (valid_count mask))).

(** A mask of shape [[B, N]]. *)
Definition mask_shaped (B N : nat) (mask : list (list bool)) : Prop :=
  length mask = B /\ Forall (fun row => length row = N) mask.

(** ** The rotation of pairs, as the specification words it *)

(** The pair [(u, v)] turned by the angle [a]. *)
Definition rotate_pair (a u v : R) : R * R :=
  (u * cos a - v * sin a, v * cos a + u * sin a).

(** Each pair [(t1_j, t2_j)] of the two halves of a vector turned by the
    angle [a_j]; the turned first components, then the turned second ones. *)
Fixpoint rotate_pairs (a t1 t2 : vec) : vec * vec :=
  match a, t1, t2 with
  | x :: a', u :: t1', v :: t2' =>
      let p := rotate_pair x u v in
      let r := rotate_pairs a' t1' t2' in
      (fst p :: fst r, snd p :: snd r)
  | _, _, _ => ([], [])
  end.

Definition rotated (a t : vec) : vec :=
  let h := length a in
  let r := rotate_pairs a (firstn h t) (skipn h t) in
  fst r ++ snd r.

(** ** The pairing of layers, as the specification words it *)

(** Residual attention then residual feedforward on the pre-attention
    input [pre] of a layer. *)
Definition residual_block (rotary : tensor2) (l : Transformer.layer) (pre : tensor3)
  : tensor3 :=
  let x := tadd (Transformer.attn l rotary pre) pre in
  tadd (Transformer.ff l x) x.

(** The layers numbered from [k + 1] on, by layer number instead of by a
    stack: [pres] holds the pre-attention inputs of the layers 1 to [k] in
    order.  A layer of the first half takes the current [x] as its
    pre-attention input; a layer [j] of the second half takes the
    combiner's image of [x] joined with the pre-attention input of the
    layer [depth + 1 - j]. *)
Fixpoint paired_run (depth : nat) (rotary : tensor2) (ls : list Transformer.layer)
    (k : nat) (pres : list tensor3) (x : tensor3) : result (list tensor3 * tensor3) :=
  match ls with
  | [] => Ok (pres, x)
  | l :: ls' =>
      let j := S k in
      pre <- (if (j <=? depth / 2)%nat then Ok x
              else
                match Transformer.skip_combiner l, nth_error pres (depth + 1 - j - 1) with
                | Some combiner, Some mirror =>
                    c <- cat_last x mirror ;; Linear_forward combiner c
                | _, _ => Err IndexError
                end) ;;
      paired_run depth rotary ls' j (pres ++ [pre]) (residual_block rotary l pre)
  end.

(** ** Shapes of the modules taken from torch *)

(** Phoneme ids of shape [[B, N]], all below [bound]. *)
Definition ids_shaped (B N bound : nat) (ids : list (list nat)) : Prop :=
  length ids = B /\
  Forall (fun r => length r = N /\ Forall (fun i => (i < bound)%nat) r) ids.

(** What torch guarantees of the modules created for a model of width [D]
    with phoneme embeddings of width [P]: attention, feedforward and the
    padded convolution keep the shape of their input, a linear layer maps
    its input width to its output width, an embedding row has the
    embedding width, [randn(n)] has [n] entries. *)
Record torch_contract (M : torch_modules) (D P : nat) : Prop := {
  attention_shape : forall ind rotary B N x,
    shaped B N D x -> shaped B N D (new_attention M ind rotary x);
  feedforward_shape : forall ind B N x,
    shaped B N D x -> shaped B N D (new_feedforward M ind x);
  combiner_shape : forall ind v,
    length v = (D + D)%nat -> length (new_linear M ind v) = D;
  to_embed_shape : forall v,
    length v = (D + P + D)%nat -> length (new_to_embed M v) = D;
  phoneme_emb_shape : forall i, length (new_phoneme_emb M i) = P;
  conv_shape : forall B N x, shaped B N D x -> shaped B N D (new_conv M x);
  sinu_weights_shape : forall n, length (new_sinu_weights M n) = n
}.

(** ** A small instance *)

(** Modules of width 2 with phoneme embeddings of width 1: attention,
    feedforward and convolution return their input, the linear layers keep
    the first two features. *)
Definition toy_modules : torch_modules := {|
  new_linear := fun _ v => firstn 2 v;
  new_attention := fun _ _ x => x;
  new_feedforward := fun _ x => x;
  new_to_embed := fun v => firstn 2 v;
  new_phoneme_emb := fun i => [INR i];
  new_conv := fun x => x;
  new_sinu_weights := fun n => repeat 1 n
|}.

Definition toy_config : config := {|
  num_phoneme_tokens := 3;
  dim_phoneme_emb := 1;
  dim := 2;
  depth := 2;
  dim_head := 2;
  conv_pos_embed_kernel_size := 3;
  conv_pos_embed_groups := None
|}.

(** The same with an odd depth. *)
Definition odd_config : config := {|
  num_phoneme_tokens := 3;
  dim_phoneme_emb := 1;
  dim := 2;
  depth := 3;
  dim_head := 2;
  conv_pos_embed_kernel_size := 3;
  conv_pos_embed_groups := None
|}.

Definition toy_transformer : Transformer.t := {|
  Transformer.layers := map (Transformer.make_layer toy_modules 2 2) (seq 0 2);
  Transformer.rotary_emb := RotaryEmbedding.init 2 10000
|}.

Definition toy_duration_predictor : DurationPredictor.t := {|
  DurationPredictor.null_phoneme_id := 3;
  DurationPredictor.to_phoneme_emb := {| num_embeddings := 4; emb := new_phoneme_emb toy_modules |};
  DurationPredictor.to_embed :=
    {| in_features := 5; out_features := 2; lin := new_to_embed toy_modules |};
  DurationPredictor.null_cond := [0; 0];
  DurationPredictor.conv_embed := {| ConvPositionEmbed.dw_conv1d := new_conv toy_modules |};
  DurationPredictor.transformer := toy_transformer
|}.

Definition toy_voicebox : VoiceBox.t := {|
  VoiceBox.sinu_pos_emb := {| LearnedSinusoidalPosEmb.weights := [1] |};
  VoiceBox.null_phoneme_id := 3;
  VoiceBox.to_phoneme_emb := {| num_embeddings := 4; emb := new_phoneme_emb toy_modules |};
  VoiceBox.to_embed :=
    {| in_features := 5; out_features := 2; lin := new_to_embed toy_modules |};
  VoiceBox.null_cond := [0; 0];
  VoiceBox.conv_embed := {| ConvPositionEmbed.dw_conv1d := new_conv toy_modules |};
  VoiceBox.transformer := toy_transformer
|}.

(** One example of one position. *)
Definition toy_x : tensor3 := [[[1; 2]]].
Definition toy_cond : tensor3 := [[[3; 4]]].
Definition toy_ids : list (list nat) := [[1%nat]].
Definition toy_times : list R := [0].

(** ** Relations between inputs and between returned values *)

(** Two sequences over a mask row that hold the same vector wherever the
    mask is [False]. *)
Fixpoint agree_row (mrow : list bool) (r r' : tensor2) : Prop :=
  match mrow, r, r' with
  | [], [], [] => True
  | m :: mrow', v :: r1, v' :: r1' => (m = false -> v = v') /\ agree_row mrow' r1 r1'
  | _, _, _ => False
  end.

(** Two batches over a mask that agree at every position the mask keeps. *)
Fixpoint agree_unmasked (mask : list (list bool)) (x x' : tensor3) : Prop :=
  match mask, x, x' with
  | [], [], [] => True
  | mrow :: mask', r :: x1, r' :: x1' => agree_row mrow r r' /\ agree_unmasked mask' x1 x1'
  | _, _, _ => False
  end.

(** Two returned values of the same kind and, for predictions, shape. *)
Definition same_shape (a b : value) : Prop :=
  match a, b with
  | Loss _, Loss _ => True
  | Logits t, Logits u => exists B N D, shaped B N D t /\ shaped B N D u
  | _, _ => False
  end.

(** ** Norm and attention *)

Module RMSNorm.

Record t : Type := { scale : R; gamma : vec }.

(** [__init__(dim)]: [dim ** 0.5] and [torch.ones(dim)]. *)
Definition init (dim : nat) : t :=
  {| scale := sqrt (INR dim); gamma := repeat 1 dim |}.

(** [F.normalize(x, dim = -1)] on one vector: [x / max(||x||_2, 1e-12)]. *)
Definition normalize (v : vec) : vec :=
  let n := Rmax (l2norm v) (1 / 1000000000000) in
  map (fun x => x / n) v.

(** [forward] on one vector: [F.normalize(x) * self.scale * self.gamma]
    (the last axis must be that of [gamma]; broadcasting an axis of size 1
    is left out). *)
Definition forward_vec (self : t) (v : vec) : result vec :=
  if (length v =? length (gamma self))%nat
  then Ok (map2 (fun x g => x * scale self * g) (normalize v) (gamma self))
  else Err ShapeError.

Definition forward (self : t) (x : tensor3) : result tensor3 :=
  mapM (mapM (forward_vec self)) x.

End RMSNorm.

(** A tensor [[b, h, n, d]]. *)
Definition tensor4 := list (list tensor2).

(** [t.chunk(3, dim = -1)] unpacked into three names, on one vector: chunks
    of size [ceil(len / 3)], and an exception unless there are exactly
    three of them (an empty axis gives three empty chunks). *)
Definition chunk3 (v : vec) : result (vec * vec * vec) :=
  let c := ((length v + 2) / 3)%nat in
  if ((length v =? 0)%nat || (2 * c <? length v)%nat)%bool
  then Ok (firstn c v, firstn c (skipn c v), skipn (2 * c) v)
  else Err ShapeError.

(** The part [h d -> h, d] of [rearrange(t, 'b n (h d) -> b h n d', h = h)]
    on one vector: [h] consecutive pieces of size [len / h]. *)
Definition split_vec (h : nat) (v : vec) : result (list vec) :=
  if (h =? 0)%nat then Err ShapeError
  else if (length v mod h =? 0)%nat
  then Ok (map (fun i => firstn (length v / h) (skipn (i * (length v / h)) v)) (seq 0 h))
  else Err ShapeError.

(** Head [i] of a sequence whose vectors are already split. *)
Definition head_of (i : nat) (rows : list (list vec)) : tensor2 :=
  map (fun pieces => nth i pieces []) rows.

(** [rearrange(t, 'b n (h d) -> b h n d', h = h)]. *)
Definition split_heads (h : nat) (t : tensor3) : result tensor4 :=
  mapM (fun s : tensor2 =>
          rows <- mapM (split_vec h) s ;;
          Ok (map (fun i => head_of i rows) (seq 0 h))) t.

(** [rearrange(out, 'b h n d -> b n (h d)')] on one batch element with
    [n] positions. *)
Definition merge_heads_seq (n : nat) (hs : list tensor2) : tensor2 :=
  map (fun j => concat (map (fun hd_ : tensor2 => nth j hd_ []) hs)) (seq 0 n).

Definition merge_heads (out : tensor4) : tensor3 :=
  map (fun hs : list tensor2 => merge_heads_seq (length (hd [] hs)) hs) out.

Module Attention.

Record t : Type := {
  heads : nat;
  norm : RMSNorm.t;
  to_qkv : Linear;
  attend : tensor4 -> tensor4 -> tensor4 -> tensor4;   (* the external [Attend] *)
  to_out : Linear
}.

(** Line 145: [apply_rotary_pos_emb(t, rotary_emb)] mapped over [q] and
    [k]; the tensor [t] is passed for the parameter [pos] of the function
    and the angle table for its parameter [t]. *)
Definition rotate (rotary_emb : tensor2) (t : tensor4) : result tensor4 :=
  mapM (mapM (fun t_bh : tensor2 => apply_rotary_pos_emb t_bh rotary_emb)) t.

Definition forward (self : t) (x : tensor3) (rotary_emb : option tensor2)
  : result tensor3 :=
  let h := heads self in
  x <- RMSNorm.forward (norm self) x ;;
  qkv <- Linear_forward (to_qkv self) x ;;
  parts <- mapM (mapM chunk3) qkv ;;
  let q := map (map (fun p : vec * vec * vec => fst (fst p))) parts in
  let k := map (map (fun p : vec * vec * vec => snd (fst p))) parts in
  let v := map (map (fun p : vec * vec * vec => snd p)) parts in
  q <- split_heads h q ;;
  k <- split_heads h k ;;
  v <- split_heads h v ;;
  qk <- match rotary_emb with
        | Some rotary_emb =>
            q' <- rotate rotary_emb q ;;
            k' <- rotate rotary_emb k ;;
            Ok (q', k')
        | None => Ok (q, k)
        end ;;
  let out := attend self (fst qk) (snd qk) v in
  let out := merge_heads out in
  Linear_forward (to_out self) out.

End Attention.

(** * Properties *)

(** ** Preconditions of the constructors and of the forward passes *)

Lemma divisible_by_2_odd (n : Z) : Z.odd n = true -> divisible_by n 2 = false.
Proof.
  intros Hodd. unfold divisible_by.
  rewrite Zmod_odd, Hodd. reflexivity.
Qed.

Lemma is_odd_even (n : Z) : Z.even n = true -> is_odd n = false.
Proof.
  intros Heven. unfold is_odd, divisible_by.
  rewrite Zmod_even, Heven. reflexivity.
Qed.

Lemma assert_false_bind {A : Type} (b : bool) (k : unit -> result A) :
  b = false -> (_ <- assert_ b ;; k tt) = Err AssertionError.
Proof. intros ->. reflexivity. Qed.

(** C7: an odd depth, an even kernel size, an odd sinusoidal dimension and
    a conditioning whose last axis differs from that of [x] each end in a
    failed assertion: the three constructors return no module, the model
    constructors built on them return none either, and both forward passes
    stop at their first statement, whatever the other arguments and the
    weights are. *)
Theorem invalid_configurations_fail_fast
    (M : torch_modules) (c : config) (dim' : Z) (dh : nat) (g : option Z)
    (w : nat -> vec) (self_d : DurationPredictor.t) (self_v : VoiceBox.t)
    (x cond : tensor3) (ids : list (list nat)) (times : list R) (p : R)
    (target : option tensor3) (mask : option (list (list bool))) (rand : nat -> R) :
  (forall depth', Z.odd depth' = true ->
     Transformer.init M dim' depth' dh = Err AssertionError) /\
  (forall ks, Z.even ks = true ->
     ConvPositionEmbed.init M dim' ks g = Err AssertionError) /\
  (forall d, Z.odd d = true ->
     LearnedSinusoidalPosEmb.init d w = Err AssertionError) /\
  (Z.even (conv_pos_embed_kernel_size c) = true \/ Z.odd (depth c) = true ->
     DurationPredictor.init M c = Err AssertionError) /\
  (Z.odd (dim c) = true \/ Z.even (conv_pos_embed_kernel_size c) = true
     \/ Z.odd (depth c) = true ->
     VoiceBox.init M c = Err AssertionError) /\
  (shape_last cond <> shape_last x ->
     DurationPredictor.forward self_d x ids cond p target mask rand = Err AssertionError /\
     VoiceBox.forward self_v x ids cond times p target mask rand = Err AssertionError).
Proof.
  assert (Ht : forall depth', Z.odd depth' = true ->
                 Transformer.init M (dim c) depth' (dim_head c) = Err AssertionError).
  { intros depth' H. unfold Transformer.init.
    now rewrite (divisible_by_2_odd _ H). }
  assert (Hc : forall ks, Z.even ks = true ->
                 ConvPositionEmbed.init M (dim c) ks (conv_pos_embed_groups c)
                 = Err AssertionError).
  { intros ks H. unfold ConvPositionEmbed.init.
    now rewrite (is_odd_even _ H). }
  repeat split.
  - intros depth' H. unfold Transformer.init.
    now rewrite (divisible_by_2_odd _ H).
  - intros ks H. unfold ConvPositionEmbed.init.
    now rewrite (is_odd_even _ H).
  - intros d H. unfold LearnedSinusoidalPosEmb.init.
    now rewrite (divisible_by_2_odd _ H).
  - intros [H | H]; unfold DurationPredictor.init.
    + now rewrite (Hc _ H).
    + unfold ConvPositionEmbed.init.
      destruct (is_odd _); simpl; [now rewrite (Ht _ H) | reflexivity].
  - intros H. unfold VoiceBox.init, LearnedSinusoidalPosEmb.init.
    destruct (divisible_by (dim c) 2) eqn:Hd; simpl; [| reflexivity].
    destruct H as [H | [H | H]].
    + rewrite (divisible_by_2_odd _ H) in Hd. discriminate.
    + now rewrite (Hc _ H).
    + unfold ConvPositionEmbed.init.
      destruct (is_odd _); simpl; [now rewrite (Ht _ H) | reflexivity].
  - unfold DurationPredictor.forward.
    apply assert_false_bind with (k := fun _ => _). now apply Nat.eqb_neq.
  - unfold VoiceBox.forward.
    apply assert_false_bind with (k := fun _ => _). now apply Nat.eqb_neq.
Qed.

(** ** A transformer without layers *)

(** C10: depth 0 passes the constructor's assertion, gives an empty layer
    list, and the forward pass of the module built returns its input. *)
Theorem transformer_depth_zero_identity
    (M : torch_modules) (dim' : Z) (dh : nat) (x : tensor3) :
  exists self,
    Transformer.init M dim' 0 dh = Ok self /\
    Transformer.layers self = [] /\
    Transformer.forward self x = Ok x.
Proof.
  eexists. split; [reflexivity |]. split; reflexivity.
Qed.

(** ** Guided inference *)

Lemma with_cond_scale_one (fwd : R -> result value) :
  with_cond_scale fwd 1 = ([0], fwd 0).
Proof.
  unfold with_cond_scale.
  destruct (fwd 0) as [logits | e]; [| reflexivity].
  destruct (Req_dec_T 1 1) as [_ | Hne]; [reflexivity | contradiction].
Qed.

Lemma with_cond_scale_other (fwd : R -> result value) (s : R) :
  s <> 1 ->
  snd (with_cond_scale fwd s)
  = (logits <- fwd 0 ;;
     null_logits <- fwd 1 ;;
     Ok (value_lift2 Rplus null_logits
           (value_scale (value_lift2 Rminus logits null_logits) s))).
Proof.
  intros Hs. unfold with_cond_scale.
  destruct (fwd 0) as [logits | e]; [| reflexivity].
  destruct (Req_dec_T s 1) as [He | _]; [contradiction |].
  simpl. destruct (fwd 1); reflexivity.
Qed.

(** C2: with [cond_scale = 1] both [forward_with_cond_scale] methods
    evaluate one forward pass, with [cond_drop_prob = 0], and return its
    result as it is; with any other [cond_scale] they return
    [null_logits + (logits - null_logits) * cond_scale], [logits] being the
    forward pass with [cond_drop_prob = 0] and [null_logits] the one with
    [cond_drop_prob = 1] (an exception of either pass is passed on). *)
Theorem forward_with_cond_scale_spec
    (self_d : DurationPredictor.t) (self_v : VoiceBox.t)
    (x cond : tensor3) (ids : list (list nat)) (times : list R)
    (target : option tensor3) (mask : option (list (list bool)))
    (rand : nat -> R) (cond_scale : R) :
  let fwd_d p := DurationPredictor.forward self_d x ids cond p target mask rand in
  let fwd_v p := VoiceBox.forward self_v x ids cond times p target mask rand in
  let extrapolate logits null_logits :=
    value_lift2 Rplus null_logits
      (value_scale (value_lift2 Rminus logits null_logits) cond_scale) in
  (cond_scale = 1 ->
     DurationPredictor.forward_with_cond_scale_calls
       self_d x ids cond target mask rand cond_scale = ([0], fwd_d 0) /\
     VoiceBox.forward_with_cond_scale_calls
       self_v x ids cond times target mask rand cond_scale = ([0], fwd_v 0)) /\
  (cond_scale <> 1 ->
     DurationPredictor.forward_with_cond_scale
       self_d x ids cond target mask rand cond_scale
     = (logits <- fwd_d 0 ;; null_logits <- fwd_d 1 ;;
        Ok (extrapolate logits null_logits)) /\
     VoiceBox.forward_with_cond_scale
       self_v x ids cond times target mask rand cond_scale
     = (logits <- fwd_v 0 ;; null_logits <- fwd_v 1 ;;
        Ok (extrapolate logits null_logits))).
Proof.
  intros fwd_d fwd_v extrapolate. split.
  - intros ->. split.
    + apply (with_cond_scale_one fwd_d).
    + apply (with_cond_scale_one fwd_v).
  - intros Hs. split.
    + apply (with_cond_scale_other fwd_d _ Hs).
    + apply (with_cond_scale_other fwd_v _ Hs).
Qed.

(** ** Guidance dropout at probability one *)

Lemma prob_mask_like_one (B : nat) (rand : nat -> R) :
  prob_mask_like B 1 rand = repeat true B.
Proof.
  unfold prob_mask_like.
  destruct (Req_dec_T 1 1) as [_ | Hne]; [reflexivity | contradiction].
Qed.

Lemma where_cond_all (null_cond : vec) (cond : tensor3) :
  where_cond (repeat true (length cond)) null_cond cond
  = map (map (fun _ => null_cond)) cond.
Proof.
  unfold where_cond. induction cond as [| c cond IH]; simpl; [reflexivity |].
  now rewrite IH.
Qed.

Lemma where_ids_all (null_id : nat) (ids : list (list nat)) :
  where_ids (repeat true (length ids)) null_id ids
  = map (map (fun _ => null_id)) ids.
Proof.
  unfold where_ids. induction ids as [| r ids IH]; simpl; [reflexivity |].
  now rewrite IH.
Qed.

Lemma cfg_dropout_one (null_cond : vec) (null_id : nat) (cond : tensor3)
    (ids : list (list nat)) (rand : nat -> R) :
  rows_have (length null_cond) cond = true ->
  length ids = length cond ->
  cfg_dropout null_cond null_id cond ids 1 rand
  = Ok (map (map (fun _ => null_cond)) cond, map (map (fun _ => null_id)) ids).
Proof.
  intros Hrows Hlen. unfold cfg_dropout.
  destruct (Rlt_dec 0 1) as [_ | Hn]; [| exfalso; apply Hn; lra].
  rewrite prob_mask_like_one, Hrows. simpl.
  unfold shape_batch. rewrite repeat_length, Hlen, Nat.eqb_refl. simpl.
  rewrite where_cond_all. rewrite <- Hlen, where_ids_all. reflexivity.
Qed.

(** C6: with [cond_drop_prob = 1] no uniform draw is read (the result is
    the same for every [rand]); for a conditioning of the model's width and
    phoneme ids over the same batch, both forward passes go on, for every
    batch element, with [null_cond] at every position of the conditioning
    and the null phoneme id at every position of the ids. *)
Theorem cond_drop_one_substitutes_null
    (self_d : DurationPredictor.t) (self_v : VoiceBox.t)
    (x cond : tensor3) (ids : list (list nat)) (times : list R)
    (target : option tensor3) (mask : option (list (list bool)))
    (rand : nat -> R)
    (Hx : shape_last cond = shape_last x)
    (Hids : length ids = length cond)
    (Hd : rows_have (length (DurationPredictor.null_cond self_d)) cond = true)
    (Hv : rows_have (length (VoiceBox.null_cond self_v)) cond = true) :
  let null_of (n : vec) := map (map (fun _ : vec => n)) cond in
  let ids_of (i : nat) := map (map (fun _ : nat => i)) ids in
  cfg_dropout (DurationPredictor.null_cond self_d)
    (DurationPredictor.null_phoneme_id self_d) cond ids 1 rand
  = Ok (null_of (DurationPredictor.null_cond self_d),
        ids_of (DurationPredictor.null_phoneme_id self_d)) /\
  cfg_dropout (VoiceBox.null_cond self_v)
    (VoiceBox.null_phoneme_id self_v) cond ids 1 rand
  = Ok (null_of (VoiceBox.null_cond self_v),
        ids_of (VoiceBox.null_phoneme_id self_v)) /\
  DurationPredictor.forward self_d x ids cond 1 target mask rand
  = (x' <- DurationPredictor.predict self_d x
             (ids_of (DurationPredictor.null_phoneme_id self_d))
             (null_of (DurationPredictor.null_cond self_d)) ;;
     DurationPredictor.loss_of x' target mask) /\
  VoiceBox.forward self_v x ids cond times 1 target mask rand
  = (x' <- VoiceBox.predict self_v x
             (ids_of (VoiceBox.null_phoneme_id self_v))
             (null_of (VoiceBox.null_cond self_v)) times ;;
     Ok (VoiceBox.loss_of x' target mask)).
Proof.
  intros null_of ids_of.
  pose proof (cfg_dropout_one _ (DurationPredictor.null_phoneme_id self_d)
                _ _ rand Hd Hids) as Ed.
  pose proof (cfg_dropout_one _ (VoiceBox.null_phoneme_id self_v)
                _ _ rand Hv Hids) as Ev.
  repeat split; try assumption.
  - unfold DurationPredictor.forward.
    rewrite Hx, Nat.eqb_refl, Ed. reflexivity.
  - unfold VoiceBox.forward.
    rewrite Hx, Nat.eqb_refl, Ev. reflexivity.
Qed.

(** ** The masked loss *)

Lemma eps_pos : 0 < eps.
Proof. unfold eps. lra. Qed.

Lemma clamp_min_ge (m : R) (l : list R) : Forall (fun d => m <= d) (clamp_min m l).
Proof.
  unfold clamp_min. apply Forall_forall. intros d Hd.
  apply in_map_iff in Hd. destruct Hd as [v [<- _]]. apply Rmax_r.
Qed.

(** C1: on one example of three positions with per-position losses 1, 1
    and 5 and the last position excluded by the mask, the code of both
    forward passes returns 2 (the kept sum 2 over the count 1 of excluded
    positions), where the masked mean of the specification (the kept sum
    over the count 2 of valid positions) is 1. *)
Theorem masked_loss_divides_by_excluded_count :
  let x := [[[1]; [1]; [5]]] in
  let target := [[[0]; [0]; [0]]] in
  let mask := [[false; false; true]] in
  DurationPredictor.loss_of x (Some target) (Some mask) = Ok (Loss 2) /\
  masked_loss_spec abs_err x target mask = 1 /\
  VoiceBox.loss_of x (Some target) (Some mask) = Loss 2 /\
  masked_loss_spec sq_err x target mask = 1.
Proof.
  unfold DurationPredictor.loss_of, VoiceBox.loss_of, masked_loss,
    masked_loss_spec, masked_per_example, elementwise, masked_fill, mask_sum,
    valid_count, clamp_min, mean, sum, abs_err, sq_err, eps.
  simpl.
  replace (1 - 0) with 1 by lra.
  rewrite Rabs_R1.
  rewrite (Rmax_left 1) by lra. rewrite (Rmax_left (1 + 1)) by lra.
  repeat split; try (do 2 f_equal); lra.
Qed.

Lemma masked_row_all_true (row : vec) (mrow : list bool) :
  Forall (fun m => m = true) mrow ->
  sum (map2 (fun l (m : bool) => if m then 0 else l) row mrow) = 0.
Proof.
  revert mrow. induction row as [| l row IH]; intros [| m mrow] H; simpl; try reflexivity.
  inversion H as [| ? ? Hm Hrest]; subst. rewrite (IH _ Hrest). lra.
Qed.

Lemma masked_per_example_all_true (u : tensor3) (mask : list (list bool)) :
  Forall (Forall (fun m => m = true)) mask ->
  masked_per_example u mask = repeat 0 (Nat.min (length u) (length mask)).
Proof.
  unfold masked_per_example, masked_fill, mask_sum, clamp_min.
  revert mask. induction u as [| r u IH]; intros [| mrow mask] H; simpl; try reflexivity.
  inversion H as [| ? ? Hrow Hrest]; subst.
  rewrite (IH _ Hrest). f_equal.
  rewrite masked_row_all_true by assumption.
  unfold Rdiv. apply Rmult_0_l.
Qed.

Lemma sum_repeat_0 (n : nat) : sum (repeat 0 n) = 0.
Proof. induction n as [| n IH]; simpl; [reflexivity | rewrite IH; lra]. Qed.

Lemma elementwise_length (f : R -> R -> R) (x target : tensor3) :
  length x = length target -> length (elementwise f x target) = length x.
Proof.
  unfold elementwise. revert target.
  induction x as [| r x IH]; intros [| s target] H; simpl in *; try congruence.
  f_equal. apply IH. congruence.
Qed.

(** C8: for a prediction and a target over a non-empty batch and a mask of
    their shape that is [True] everywhere, every denominator of the masked
    mean is at least [1e-5], hence positive, every per-example value is 0
    and [DurationPredictor.forward] ends with the loss 0. *)
Theorem fully_masked_loss_is_finite
    (B N D : nat) (x target : tensor3) (mask : list (list bool))
    (HB : (0 < B)%nat)
    (Hx : shaped B N D x) (Ht : shaped B N D target)
    (Hm : mask_shaped B N mask)
    (Hall : Forall (Forall (fun m => m = true)) mask) :
  Forall (fun den => 0 < den /\ eps <= den) (clamp_min eps (mask_sum mask)) /\
  masked_per_example (elementwise abs_err x target) mask = repeat 0 B /\
  DurationPredictor.loss_of x (Some target) (Some mask) = Ok (Loss 0).
Proof.
  destruct Hx as [Hx _], Ht as [Ht _], Hm as [Hm _].
  assert (Hper : masked_per_example (elementwise abs_err x target) mask = repeat 0 B).
  { rewrite masked_per_example_all_true by assumption.
    rewrite elementwise_length by congruence.
    rewrite Hx, Hm, Nat.min_id. reflexivity. }
  split; [| split].
  - eapply Forall_impl; [| apply clamp_min_ge].
    intros den Hden. pose proof eps_pos. simpl in Hden. split; lra.
  - exact Hper.
  - unfold DurationPredictor.loss_of, masked_loss. rewrite Hper.
    unfold mean. rewrite sum_repeat_0, repeat_length.
    do 2 f_equal. unfold Rdiv. apply Rmult_0_l.
Qed.

Lemma sum_app (a b : list R) : sum (a ++ b) = sum a + sum b.
Proof. induction a as [| v a IH]; simpl; [lra | rewrite IH; lra]. Qed.

Lemma sum_map_scale (k : R) (l : list R) : sum (map (fun v => v * k) l) = sum l * k.
Proof. induction l as [| v l IH]; simpl; [lra | rewrite IH; lra]. Qed.

Lemma mean_map_scale (k : R) (l : list R) : mean (map (fun v => v * k) l) = mean l * k.
Proof. unfold mean. rewrite sum_map_scale, length_map. unfold Rdiv. ring. Qed.

Lemma map2_length {A B C : Type} (f : A -> B -> C) (l : list A) (m : list B) :
  length l = length m -> length (map2 f l m) = length l.
Proof.
  revert m. induction l as [| a l IH]; intros [| b m] H; simpl in *; try congruence.
  f_equal. apply IH. congruence.
Qed.

Lemma elementwise_shaped (f : R -> R -> R) (B N D : nat) (x target : tensor3) :
  shaped B N D x -> shaped B N D target -> shaped B N D (elementwise f x target).
Proof.
  intros [Hx Fx] [Ht Ft]. split.
  - rewrite elementwise_length; congruence.
  - clear Hx Ht. unfold elementwise. revert target Ft.
    induction Fx as [| r x [Hr Fr] _ IH]; intros target Ft; [constructor |].
    destruct Ft as [| s target [Hs Fs] Ft]; simpl; constructor; [| now apply IH].
    split.
    + rewrite map2_length; [exact Hr | exact (eq_trans Hr (eq_sym Hs))].
    + clear Hr Hs. revert s Fs.
      induction Fr as [| v r Hv _ IHr]; intros s Fs; [constructor |].
      destruct Fs as [| w s Hw Fs]; simpl; constructor; [| now apply IHr].
      rewrite map2_length; [exact Hv | exact (eq_trans Hv (eq_sym Hw))].
Qed.

Lemma masked_row_all_false (row : vec) (mrow : list bool) :
  length mrow = length row ->
  Forall (fun m => m = false) mrow ->
  map2 (fun l (m : bool) => if m then 0 else l) row mrow = row.
Proof.
  revert mrow. induction row as [| l row IH]; intros [| m mrow] Hlen H;
    simpl in *; try congruence.
  inversion H as [| ? ? Hm Hrest]; subst. f_equal. apply IH; congruence.
Qed.

Lemma masked_per_example_all_false (B N D : nat) (u : tensor3) (mask : list (list bool)) :
  shaped B N D u -> mask_shaped B N mask ->
  Forall (Forall (fun m => m = false)) mask ->
  masked_per_example u mask = map (fun row => sum (map mean row) / eps) u.
Proof.
  unfold masked_per_example, masked_fill, mask_sum, clamp_min.
  intros [Hu Fu] [Hm Fm] Hall. subst B. revert mask Hm Fm Hall.
  induction Fu as [| r u [Hr _] _ IH]; intros [| mrow mask] Hm Fm Hall;
    simpl in *; try congruence.
  inversion Fm as [| ? ? Hrow Fm']; inversion Hall as [| ? ? Hfalse Hall']; subst.
  f_equal.
  - rewrite masked_row_all_false; [| now rewrite length_map | assumption].
    f_equal.
    rewrite (proj1 (count_occ_not_In bool_dec mrow true)).
    + simpl. apply Rmax_right. pose proof eps_pos. lra.
    + intros Hin. rewrite Forall_forall in Hfalse.
      specialize (Hfalse _ Hin). discriminate.
  - apply IH; [congruence | assumption | assumption].
Qed.

Lemma sum_map_mean_row (N D : nat) (row : tensor2) :
  shaped2 N D row -> sum (map mean row) = sum (concat row) / INR D.
Proof.
  intros [_ F]. induction F as [| v row Hv _ IH]; simpl.
  - unfold Rdiv. now rewrite Rmult_0_l.
  - rewrite sum_app, IH. unfold mean. rewrite Hv. unfold Rdiv. ring.
Qed.

Lemma length_concat_row (N D : nat) (row : tensor2) :
  shaped2 N D row -> length (concat row) = (N * D)%nat.
Proof.
  intros [H F]. subst N. induction F as [| v row Hv _ IH]; simpl; [reflexivity |].
  rewrite length_app, IH, Hv. reflexivity.
Qed.

Lemma sum_per_position (N D : nat) (u : tensor3) :
  Forall (shaped2 N D) u ->
  sum (map (fun row => sum (map mean row)) u) = sum (flatten u) / INR D.
Proof.
  unfold flatten. intros F. induction F as [| r u Hr _ IH]; simpl.
  - unfold Rdiv. now rewrite Rmult_0_l.
  - rewrite sum_app, IH, (sum_map_mean_row _ _ _ Hr). unfold Rdiv. ring.
Qed.

Lemma length_flatten (B N D : nat) (u : tensor3) :
  shaped B N D u -> length (flatten u) = (B * N * D)%nat.
Proof.
  unfold flatten. intros [H F]. subst B. induction F as [| r u Hr _ IH]; simpl; [reflexivity |].
  rewrite length_app, IH, (length_concat_row _ _ _ Hr). lia.
Qed.

(** C9: for a prediction and a target of shape [[B, N, D]] with no empty
    axis and a mask of shape [[B, N]] that is [False] everywhere,
    [DurationPredictor.forward] ends with the batch average of each
    example's sum of per-position mean absolute errors divided by [1e-5],
    which is 100000 times the average of those sums and 100000 * N times
    the loss of the path without a mask; the two losses differ unless
    that one is 0. *)
Theorem all_false_mask_divides_by_eps
    (B N D : nat) (x target : tensor3) (mask : list (list bool))
    (HB : (0 < B)%nat) (HN : (0 < N)%nat) (HD : (0 < D)%nat)
    (Hx : shaped B N D x) (Ht : shaped B N D target)
    (Hm : mask_shaped B N mask)
    (Hnone : Forall (Forall (fun m => m = false)) mask) :
  let per_position := map (map mean) (elementwise abs_err x target) in
  clamp_min eps (mask_sum mask) = repeat eps B /\
  DurationPredictor.loss_of x (Some target) (Some mask)
  = Ok (Loss (mean (map (fun row => sum row / eps) per_position))) /\
  masked_loss abs_err x target mask = 100000 * mean (map sum per_position) /\
  masked_loss abs_err x target mask = 100000 * INR N * mean_loss abs_err x target /\
  (mean_loss abs_err x target <> 0 ->
   masked_loss abs_err x target mask <> mean_loss abs_err x target).
Proof.
  intros per_position.
  pose proof (elementwise_shaped abs_err _ _ _ _ _ Hx Ht) as Hu.
  pose proof (masked_per_example_all_false _ _ _ _ _ Hu Hm Hnone) as Hper.
  assert (Hlen : length (elementwise abs_err x target) = B) by apply Hu.
  assert (HBr : INR B <> 0) by (apply not_0_INR; lia).
  assert (HNr : INR N <> 0) by (apply not_0_INR; lia).
  assert (HDr : INR D <> 0) by (apply not_0_INR; lia).
  assert (Hmasked : masked_loss abs_err x target mask
                    = 100000 * mean (map sum per_position)).
  { unfold masked_loss. rewrite Hper. unfold per_position.
    replace (map (fun row => sum (map mean row) / eps) (elementwise abs_err x target))
      with (map (fun v => v * 100000)
              (map sum (map (map mean) (elementwise abs_err x target)))).
    - rewrite mean_map_scale. ring.
    - rewrite !map_map. apply map_ext. intros row. unfold eps. field. }
  assert (Hrel : masked_loss abs_err x target mask
                 = 100000 * INR N * mean_loss abs_err x target).
  { rewrite Hmasked. unfold per_position, mean_loss, mean.
    rewrite !length_map, map_map, (sum_per_position N D) by apply Hu.
    rewrite (length_flatten _ _ _ _ Hu), !mult_INR.
    unfold tensor3, tensor2, vec in *. rewrite Hlen. field. auto. }
  split; [| split; [| split; [| split]]].
  - destruct Hm as [Hm Fm]. subst B. clear - Fm Hnone.
    unfold clamp_min, mask_sum.
    induction Hnone as [| mrow mask Hfalse _ IH]; simpl; [reflexivity |].
    inversion Fm; subst. rewrite IH by assumption. f_equal.
    rewrite (proj1 (count_occ_not_In bool_dec mrow true)).
    + simpl. apply Rmax_right. pose proof eps_pos. lra.
    + intros Hin. rewrite Forall_forall in Hfalse.
      specialize (Hfalse _ Hin). discriminate.
  - unfold DurationPredictor.loss_of, masked_loss. rewrite Hper.
    unfold per_position. now rewrite map_map.
  - exact Hmasked.
  - exact Hrel.
  - intros Hne Heq. rewrite Hrel in Heq.
    assert (1 <= INR N) by (apply (le_INR 1); lia).
    assert ((100000 * INR N - 1) * mean_loss abs_err x target = 0) by lra.
    apply Rmult_integral in H0. destruct H0; [lra | contradiction].
Qed.

(** ** Rotary embedding *)

Lemma map2_app {A B C : Type} (f : A -> B -> C) (l1 l2 : list A) (m1 m2 : list B) :
  length l1 = length m1 ->
  map2 f (l1 ++ l2) (m1 ++ m2) = map2 f l1 m1 ++ map2 f l2 m2.
Proof.
  revert m1. induction l1 as [| a l1 IH]; intros [| b m1] H; simpl in *; try congruence.
  f_equal. apply IH. congruence.
Qed.

Lemma div2_double_succ (h : nat) : Nat.div2 (h + h + 1) = h.
Proof.
  replace (h + h + 1)%nat with (S (2 * h)) by lia. apply Nat.div2_succ_double.
Qed.

Lemma rotate_pairs_length (a t1 t2 : vec) :
  length t1 = length a -> length t2 = length a ->
  length (fst (rotate_pairs a t1 t2)) = length a /\
  length (snd (rotate_pairs a t1 t2)) = length a.
Proof.
  revert t1 t2. induction a as [| x a IH]; intros [| u t1] [| v t2] H1 H2;
    simpl in *; try congruence; try (split; reflexivity).
  destruct (IH t1 t2) as [E1 E2]; try congruence.
  split; congruence.
Qed.

(** The two sums of [apply_rotary_pos_emb], half by half. *)
Lemma rotary_halves (a t1 t2 : vec) :
  length t1 = length a -> length t2 = length a ->
  vadd (map2 Rmult t1 (map cos a)) (map2 Rmult (map Ropp t2) (map sin a))
  = fst (rotate_pairs a t1 t2) /\
  vadd (map2 Rmult t2 (map cos a)) (map2 Rmult t1 (map sin a))
  = snd (rotate_pairs a t1 t2).
Proof.
  unfold vadd.
  revert t1 t2. induction a as [| x a IH]; intros [| u t1] [| v t2] H1 H2;
    simpl in *; try congruence; try (split; reflexivity).
  destruct (IH t1 t2) as [E1 E2]; try congruence.
  rewrite E1, E2. split; f_equal; ring.
Qed.

Lemma vmul_ok (a b : vec) : length a = length b -> vmul a b = Ok (map2 Rmult a b).
Proof. intros H. unfold vmul. now rewrite H, Nat.eqb_refl. Qed.

Lemma vadd_checked_ok (a b : vec) : length a = length b -> vadd_checked a b = Ok (vadd a b).
Proof. intros H. unfold vadd_checked. now rewrite H, Nat.eqb_refl. Qed.

Lemma chunk2_app (t1 t2 : vec) :
  (0 < length t1)%nat -> length t1 = length t2 -> chunk2 (t1 ++ t2) = Ok (t1, t2).
Proof.
  intros Hpos H. unfold chunk2. rewrite length_app, <- H.
  destruct (length t1 + length t1 <? 2)%nat eqn:Hlt;
    [apply Nat.ltb_lt in Hlt; lia |].
  rewrite div2_double_succ.
  rewrite firstn_app, skipn_app, firstn_all, skipn_all, Nat.sub_diag. simpl.
  now rewrite app_nil_r.
Qed.

Lemma rotate_half_app (t1 t2 : vec) :
  (0 < length t1)%nat -> length t1 = length t2 ->
  rotate_half (t1 ++ t2) = Ok (map Ropp t2 ++ t1).
Proof.
  intros Hpos H. unfold rotate_half. now rewrite chunk2_app.
Qed.

(** On an angle row [a ++ a] and a vector [t1 ++ t2] of the same size
    [apply_rotary_pos_emb] turns the pairs. *)
Lemma apply_rotary_row (a t1 t2 : vec) :
  (0 < length a)%nat -> length t1 = length a -> length t2 = length a ->
  apply_rotary_pos_emb_row (a ++ a) (t1 ++ t2)
  = Ok (fst (rotate_pairs a t1 t2) ++ snd (rotate_pairs a t1 t2)).
Proof.
  intros Hpos H1 H2.
  destruct (rotary_halves a t1 t2 H1 H2) as [E1 E2].
  unfold apply_rotary_pos_emb_row.
  rewrite vmul_ok by (rewrite length_map, !length_app; congruence). simpl.
  rewrite rotate_half_app by congruence. simpl.
  rewrite vmul_ok by (rewrite length_map, !length_app, length_map; congruence). simpl.
  rewrite !map_app.
  rewrite !map2_app by (rewrite !length_map; congruence).
  rewrite vadd_checked_ok
    by (rewrite !length_app, !map2_length; rewrite ?length_map; congruence).
  unfold vadd in *.
  rewrite map2_app by (rewrite !map2_length; rewrite ?length_map; congruence).
  now rewrite E1, E2.
Qed.

Lemma rotate_pairs_sum_sq (a t1 t2 : vec) :
  length t1 = length a -> length t2 = length a ->
  sum_sq (fst (rotate_pairs a t1 t2)) + sum_sq (snd (rotate_pairs a t1 t2))
  = sum_sq t1 + sum_sq t2.
Proof.
  unfold sum_sq.
  revert t1 t2. induction a as [| x a IH]; intros [| u t1] [| v t2] H1 H2;
    simpl in *; try congruence; try reflexivity.
  specialize (IH t1 t2 ltac:(congruence) ltac:(congruence)).
  pose proof (sin2_cos2 x) as Hsc. unfold Rsqr in Hsc.
  nra.
Qed.

Lemma rotate_pairs_inverse (a t1 t2 : vec) :
  length t1 = length a -> length t2 = length a ->
  rotate_pairs (map Ropp a) (fst (rotate_pairs a t1 t2)) (snd (rotate_pairs a t1 t2))
  = (t1, t2).
Proof.
  revert t1 t2. induction a as [| x a IH]; intros [| u t1] [| v t2] H1 H2;
    simpl in *; try congruence; try reflexivity.
  rewrite (IH t1 t2) by congruence. unfold rotate_pair. simpl.
  rewrite cos_neg, sin_neg.
  pose proof (sin2_cos2 x) as Hsc. unfold Rsqr in Hsc.
  f_equal; f_equal.
  - transitivity (u * (sin x * sin x + cos x * cos x)); [ring | rewrite Hsc; ring].
  - transitivity (v * (sin x * sin x + cos x * cos x)); [ring | rewrite Hsc; ring].
Qed.

Lemma sum_sq_app (x y : vec) : sum_sq (x ++ y) = sum_sq x + sum_sq y.
Proof. unfold sum_sq. now rewrite map_app, sum_app. Qed.

Lemma rotated_row (a v : vec) :
  (0 < length a)%nat -> length v = (2 * length a)%nat ->
  apply_rotary_pos_emb_row (a ++ a) v = Ok (rotated a v) /\
  length (rotated a v) = length v /\
  sum_sq (rotated a v) = sum_sq v /\
  apply_rotary_pos_emb_row (map Ropp a ++ map Ropp a) (rotated a v) = Ok v.
Proof.
  intros Hpos Hv. unfold rotated.
  set (t1 := firstn (length a) v). set (t2 := skipn (length a) v).
  assert (Hsplit : v = t1 ++ t2) by (symmetry; apply firstn_skipn).
  assert (H1 : length t1 = length a) by (unfold t1; rewrite length_firstn; lia).
  assert (H2 : length t2 = length a) by (unfold t2; rewrite length_skipn; lia).
  destruct (rotate_pairs_length a t1 t2 H1 H2) as [L1 L2].
  split; [| split; [| split]].
  - rewrite Hsplit at 1. now apply apply_rotary_row.
  - rewrite length_app, L1, L2. lia.
  - rewrite sum_sq_app, rotate_pairs_sum_sq by assumption.
    now rewrite Hsplit, sum_sq_app.
  - rewrite apply_rotary_row by (rewrite ?length_map; congruence).
    rewrite rotate_pairs_inverse by assumption. simpl. now rewrite Hsplit.
Qed.

Lemma rotated_rows (h : nat) (angles : list vec) (t : tensor2) :
  (0 < h)%nat ->
  Forall (fun a : vec => length a = h) angles ->
  shaped2 (length angles) (2 * h) t ->
  apply_rotary_pos_emb (map (fun a => a ++ a) angles) t = Ok (map2 rotated angles t) /\
  shaped2 (length angles) (2 * h) (map2 rotated angles t) /\
  map sum_sq (map2 rotated angles t) = map sum_sq t /\
  apply_rotary_pos_emb (map (fun a => map Ropp a ++ map Ropp a) angles)
    (map2 rotated angles t) = Ok t.
Proof.
  intros Hh Fa [Hlen Ft]. revert t Hlen Ft.
  induction Fa as [| a angles Ha _ IH]; intros [| v t] Hlen Ft; simpl in *;
    try discriminate.
  - repeat split; constructor.
  - inversion Ft as [| ? ? Hv Ft']; subst.
    destruct (IH t) as (E & [Sl Sf] & Q & Inv); [congruence | assumption |].
    destruct (rotated_row a v) as (Er & Lr & Qr & Invr); [lia | lia |].
    rewrite Er, Invr. simpl. rewrite E, Inv. simpl.
    split; [reflexivity |]. split; [split |]; [| | split].
    + simpl. f_equal. exact Sl.
    + constructor; [rewrite Lr; exact Hv | exact Sf].
    + now rewrite Qr, Q.
    + reflexivity.
Qed.

Lemma rotary_forward_rows (h seq_len : nat) (theta : R) :
  let freqs := RotaryEmbedding.inv_freq (RotaryEmbedding.init (2 * h) theta) in
  let angles := map (fun i => map (fun f => INR i * f) freqs) (seq 0 seq_len) in
  RotaryEmbedding.forward (RotaryEmbedding.init (2 * h) theta) seq_len
  = map (fun a => a ++ a) angles /\
  Forall (fun a : vec => length a = h) angles /\
  length angles = seq_len.
Proof.
  intros freqs angles. split; [| split].
  - unfold RotaryEmbedding.forward, angles. now rewrite map_map.
  - apply Forall_forall. intros a Ha. unfold angles in Ha.
    apply in_map_iff in Ha. destruct Ha as [i [<- _]].
    unfold freqs, RotaryEmbedding.init, RotaryEmbedding.arange_step2. simpl.
    rewrite !length_map, length_seq.
    replace (h + (h + 0) + 1)%nat with (h + h + 1)%nat by lia.
    apply div2_double_succ.
  - unfold angles. now rewrite length_map, length_seq.
Qed.

(** C4: for an even head dimension [2 * h] with [h > 0], the angle table
    of [RotaryEmbedding.forward] for [seq_len] positions and every [t] of
    shape [[seq_len, 2 * h]], [apply_rotary_pos_emb(pos, t)] returns a
    tensor of the same shape in which position [i] holds the pairs
    [(t_j, t_{j+h})] turned by the angle [pos_{i,j}]; each of its vectors
    has the L2 norm of the vector of [t] at that position, and
    [apply_rotary_pos_emb] with the negated table gives back [t]. *)
Theorem rotary_preserves_norm_and_inverts
    (h seq_len : nat) (theta : R) (t : tensor2)
    (Hh : (0 < h)%nat)
    (Ht : shaped2 seq_len (2 * h) t) :
  let pos := RotaryEmbedding.forward (RotaryEmbedding.init (2 * h) theta) seq_len in
  exists r,
    apply_rotary_pos_emb pos t = Ok r /\
    r = map2 (fun p v => rotated (firstn h p) v) pos t /\
    shaped2 seq_len (2 * h) r /\
    map l2norm r = map l2norm t /\
    apply_rotary_pos_emb (map (map Ropp) pos) r = Ok t.
Proof.
  intros pos.
  destruct (rotary_forward_rows h seq_len theta) as (Epos & Fa & La).
  cbv zeta in Epos, Fa, La.
  set (angles := map _ (seq 0 seq_len)) in *.
  rewrite <- La in Ht.
  destruct (rotated_rows h angles t Hh Fa Ht) as (E & S & Q & Inv).
  exists (map2 rotated angles t).
  unfold pos. rewrite Epos.
  split; [exact E |]. split; [| split; [| split]].
  - clear - Fa. revert t. induction Fa as [| a angles Ha _ IH]; intros [| v t];
      simpl; try reflexivity.
    rewrite firstn_app, firstn_all2, Ha, Nat.sub_diag by lia.
    simpl. rewrite app_nil_r. f_equal. apply IH.
  - now rewrite <- La.
  - unfold l2norm. rewrite <- (map_map sum_sq sqrt), Q. now rewrite map_map.
  - rewrite map_map.
    rewrite (map_ext (fun a => map Ropp (a ++ a))
                     (fun a => map Ropp a ++ map Ropp a))
      by (intros a; apply map_app).
    exact Inv.
Qed.

(** ** The skip connections of the transformer *)

Lemma has_skip_nat (depth : Z) (k : nat) :
  (Z.of_nat k + 1 >? depth / 2)%Z = negb (S k <=? Z.to_nat depth / 2)%nat.
Proof.
  destruct (S k <=? Z.to_nat depth / 2)%nat eqn:E; simpl.
  - apply Nat.leb_le in E.
    assert (H : (Z.of_nat k + 1 <= depth / 2)%Z).
    { assert (Hd : (0 <= depth)%Z) by (destruct depth; simpl in E; lia).
      rewrite <- (Z2Nat.id depth Hd) at 1.
      change 2%Z with (Z.of_nat 2). rewrite <- Nat2Z.inj_div. lia. }
    destruct (Z.of_nat k + 1 >? depth / 2)%Z eqn:G; [| reflexivity].
    apply Z.gtb_lt in G. lia.
  - apply Nat.leb_gt in E.
    assert (H : (depth / 2 < Z.of_nat k + 1)%Z).
    { destruct (Z.le_gt_cases 0 depth) as [Hd | Hd].
      - rewrite <- (Z2Nat.id depth Hd) at 1.
        change 2%Z with (Z.of_nat 2). rewrite <- Nat2Z.inj_div. lia.
      - assert (depth / 2 < 0)%Z by (apply Z.div_lt_upper_bound; lia). lia. }
    apply Z.gtb_lt. lia.
Qed.

Lemma even_half (n : nat) : Nat.even n = true -> (2 * (n / 2) = n)%nat.
Proof.
  intros H. apply Nat.even_spec in H. destruct H as [q ->].
  rewrite (Nat.mul_comm 2 q), Nat.div_mul by lia. lia.
Qed.

Lemma firstn_snoc_nth {A : Type} (l : list A) (n : nat) (a : A) :
  nth_error l n = Some a -> firstn (S n) l = firstn n l ++ [a].
Proof.
  revert l. induction n as [| n IH]; intros [| b l] H; simpl in *; try discriminate.
  - now inversion H.
  - f_equal. now apply IH.
Qed.

(** The stack of [forward] after [k] of [n] layers holds the pre-attention
    inputs still waiting for their mirror layer, the latest on top. *)
Definition waiting (n k : nat) (pres : list tensor3) : list tensor3 :=
  rev (firstn (if (k <=? n / 2)%nat then k else n - k) pres).

Lemma run_paired (M : torch_modules) (dim' depth' : Z) (rotary : tensor2) (m : nat) :
  forall (k : nat) (pres : list tensor3) (x : tensor3),
    let n := Z.to_nat depth' in
    Nat.even n = true ->
    (k + m = n)%nat ->
    length pres = k ->
    let ls := map (Transformer.make_layer M dim' depth') (seq k m) in
    (st <- Transformer.run rotary ls (x, waiting n k pres) ;; Ok (fst st))
    = (st <- paired_run n rotary ls k pres x ;; Ok (snd st)).
Proof.
  induction m as [| m IH]; intros k pres x n Heven Hk Hlen ls; [reflexivity |].
  subst ls. cbn [seq map Transformer.run paired_run].
  assert (Hhalf : (2 * (n / 2) = n)%nat).
  { apply even_half. exact Heven. }
  unfold Transformer.step at 1.
  cbn [Transformer.make_layer Transformer.skip_combiner Transformer.attn Transformer.ff].
  rewrite has_skip_nat. fold n.
  destruct (S k <=? n / 2)%nat eqn:E; cbn [negb bind].
  - (* first half: push *)
    apply Nat.leb_le in E.
    specialize (IH (S k) (pres ++ [x])
                  (residual_block rotary (Transformer.make_layer M dim' depth' k) x)
                  Heven ltac:(lia) ltac:(rewrite length_app; simpl; lia)).
    cbv zeta in IH. fold n in IH. rewrite <- IH. clear IH.
    unfold waiting.
    destruct (k <=? n / 2)%nat eqn:E1; [| apply Nat.leb_gt in E1; lia].
    destruct (S k <=? n / 2)%nat eqn:E2; [| apply Nat.leb_gt in E2; lia].
    replace (firstn k pres) with pres
      by (rewrite <- Hlen; symmetry; apply firstn_all).
    replace (firstn (S k) (pres ++ [x])) with (pres ++ [x])
      by (symmetry; apply firstn_all2; rewrite length_app; simpl; lia).
    rewrite rev_app_distr. reflexivity.
  - (* second half: pop the mirror layer's input *)
    apply Nat.leb_gt in E.
    assert (Hw : exists mirror,
               nth_error pres (n + 1 - S k - 1) = Some mirror /\
               waiting n k pres = mirror :: waiting n (S k) pres
               /\ forall pre, waiting n (S k) (pres ++ [pre]) = waiting n (S k) pres).
    { unfold waiting.
      destruct (S k <=? n / 2)%nat eqn:E2; [apply Nat.leb_le in E2; lia |].
      replace (n + 1 - S k - 1)%nat with (n - S k)%nat by lia.
      assert (Hin : (n - S k < length pres)%nat) by lia.
      destruct (nth_error pres (n - S k)) as [mirror |] eqn:Hn;
        [| apply nth_error_None in Hn; lia].
      exists mirror. split; [reflexivity |]. split.
      - replace (if (k <=? n / 2)%nat then k else (n - k)%nat) with (S (n - S k))
          by (destruct (k <=? n / 2)%nat eqn:E1;
              [apply Nat.leb_le in E1 | apply Nat.leb_gt in E1]; lia).
        rewrite (firstn_snoc_nth _ _ _ Hn) at 1.
        rewrite rev_app_distr. reflexivity.
      - intros pre. rewrite firstn_app.
        replace (n - S k - length pres)%nat with 0%nat by lia.
        simpl. now rewrite app_nil_r. }
    destruct Hw as (mirror & Hnth & Hpop & Hkeep).
    rewrite Hnth, Hpop.
    destruct (cat_last x mirror) as [c | e]; [| reflexivity]. cbn [bind].
    destruct (Linear_forward _ c) as [pre | e]; [| reflexivity]. cbn [bind].
    specialize (IH (S k) (pres ++ [pre])
                  (residual_block rotary (Transformer.make_layer M dim' depth' k) pre)
                  Heven ltac:(lia) ltac:(rewrite length_app; simpl; lia)).
    cbv zeta in IH. fold n in IH. rewrite <- IH, Hkeep. reflexivity.
Qed.

Lemma even_to_nat (z : Z) : Z.even z = true -> Nat.even (Z.to_nat z) = true.
Proof.
  intros H. apply Z.even_spec in H. destruct H as [q ->].
  apply Nat.even_spec.
  destruct (Z.le_gt_cases 0 q) as [Hq | Hq].
  - exists (Z.to_nat q). rewrite Z2Nat.inj_mul by lia. reflexivity.
  - exists 0%nat. destruct q; simpl; try reflexivity. lia.
Qed.

(** C5: for an even depth the constructor builds [depth] layers, of which
    exactly those of the second half carry a skip combiner, and the forward
    pass computes what the pairing by layer number prescribes: every layer
    is residual attention then residual feedforward on its pre-attention
    input, which for a layer [k] of the first half is the current [x] and
    for a layer [k] of the second half the combiner's image of [x] joined,
    along the feature axis, with the pre-attention input of the layer
    [depth + 1 - k]. *)
Theorem skip_connections_pair_mirror_layers
    (M : torch_modules) (dim' depth' : Z) (dh : nat)
    (Heven : Z.even depth' = true) :
  exists self,
    Transformer.init M dim' depth' dh = Ok self /\
    length (Transformer.layers self) = Z.to_nat depth' /\
    (forall k l, nth_error (Transformer.layers self) k = Some l ->
       (exists combiner, Transformer.skip_combiner l = Some combiner)
       <-> (Z.to_nat depth' / 2 < S k)%nat) /\
    forall x,
      Transformer.forward self x
      = (st <- paired_run (Z.to_nat depth')
                 (RotaryEmbedding.forward (Transformer.rotary_emb self) (shape_seq x))
                 (Transformer.layers self) 0 [] x ;;
         Ok (snd st)).
Proof.
  eexists. split; [| split; [| split]].
  - unfold Transformer.init, divisible_by.
    rewrite Zmod_even, Heven. reflexivity.
  - simpl. now rewrite length_map, length_seq.
  - intros k l Hl. simpl in Hl.
    rewrite nth_error_map in Hl.
    destruct (nth_error (seq 0 (Z.to_nat depth')) k) as [i |] eqn:Hi; [| discriminate].
    assert (Hk : (k < Z.to_nat depth')%nat).
    { assert (Hs : nth_error (seq 0 (Z.to_nat depth')) k <> None) by congruence.
      apply nth_error_Some in Hs. now rewrite length_seq in Hs. }
    rewrite nth_error_seq in Hi.
    destruct (k <? Z.to_nat depth')%nat eqn:Hlt;
      [| apply Nat.ltb_ge in Hlt; lia].
    simpl in Hi, Hl. injection Hi as <-. injection Hl as <-.
    cbn [Transformer.make_layer Transformer.skip_combiner].
    rewrite has_skip_nat.
    destruct (S k <=? Z.to_nat depth' / 2)%nat eqn:E; cbn [negb].
    + apply Nat.leb_le in E. split; [intros [c Hc]; discriminate | intros; lia].
    + apply Nat.leb_gt in E. split; [intros _; exact E | intros _; eexists; reflexivity].
  - intros x. unfold Transformer.forward. cbn [Transformer.layers Transformer.rotary_emb].
    apply (run_paired M dim' depth' _ (Z.to_nat depth') 0 [] x).
    + now apply even_to_nat.
    + reflexivity.
    + reflexivity.
Qed.

(** ** Shapes through the forward pass of VoiceBox *)

Lemma tadd_shaped (B N D : nat) (a b : tensor3) :
  shaped B N D a -> shaped B N D b -> shaped B N D (tadd a b).
Proof. apply (elementwise_shaped Rplus). Qed.

Lemma cat_rows_shaped (N D1 D2 : nat) (a b : tensor2) :
  shaped2 N D1 a -> shaped2 N D2 b ->
  exists c, cat_rows a b = Ok c /\ shaped2 N (D1 + D2) c.
Proof.
  intros [Ha Fa] [Hb Fb]. subst N. revert b Hb Fb.
  induction Fa as [| u a Hu _ IH]; intros [| v b] Hb Fb; simpl in *; try discriminate.
  - exists []. repeat split. constructor.
  - apply Forall_cons_iff in Fb. destruct Fb as [Hv Fb'].
    destruct (IH b) as (c & -> & Hc & Fc); [congruence | assumption |].
    eexists. split; [reflexivity |]. split; simpl.
    + now rewrite Hc.
    + constructor; [| exact Fc]. rewrite length_app.
      exact (f_equal2 Nat.add Hu Hv).
Qed.

Lemma cat_last_shaped (B N D1 D2 : nat) (a b : tensor3) :
  shaped B N D1 a -> shaped B N D2 b ->
  exists c, cat_last a b = Ok c /\ shaped B N (D1 + D2) c.
Proof.
  intros [Ha Fa] [Hb Fb]. subst B. revert b Hb Fb.
  induction Fa as [| u a Hu _ IH]; intros [| v b] Hb Fb; simpl in *; try discriminate.
  - exists []. repeat split. constructor.
  - apply Forall_cons_iff in Fb. destruct Fb as [Hv Fb'].
    destruct (cat_rows_shaped _ _ _ _ _ Hu Hv) as (r & -> & Hr).
    destruct (IH b) as (c & -> & Hc & Fc); [congruence | assumption |].
    eexists. split; [reflexivity |]. split; simpl.
    + now rewrite Hc.
    + constructor; assumption.
Qed.

Lemma rows_have_shaped (B N D : nat) (x : tensor3) :
  shaped B N D x -> rows_have D x = true.
Proof.
  intros [_ F]. unfold rows_have. apply forallb_forall. intros r Hr.
  rewrite Forall_forall in F. destruct (F r Hr) as [_ Fr].
  apply forallb_forall. intros v Hv. rewrite Forall_forall in Fr.
  apply Nat.eqb_eq. now apply Fr.
Qed.

Lemma map_shaped (B N D D' : nat) (f : vec -> vec) (x : tensor3) :
  (forall v, length v = D -> length (f v) = D') ->
  shaped B N D x -> shaped B N D' (map (map f) x).
Proof.
  intros Hf [Hx F]. split; [now rewrite length_map |].
  apply Forall_map. eapply Forall_impl; [| exact F].
  intros r [Hr Fr]. split; [now rewrite length_map |].
  apply Forall_map. eapply Forall_impl; [| exact Fr]. exact Hf.
Qed.

Lemma Linear_forward_shaped (B N : nat) (l : Linear) (x : tensor3) :
  (forall v, length v = in_features l -> length (lin l v) = out_features l) ->
  shaped B N (in_features l) x ->
  exists y, Linear_forward l x = Ok y /\ shaped B N (out_features l) y.
Proof.
  intros Hl Hx. unfold Linear_forward.
  rewrite (rows_have_shaped _ _ _ _ Hx).
  eexists. split; [reflexivity |]. now apply map_shaped with (D := in_features l).
Qed.

Lemma Embedding_forward_shaped (B N P : nat) (e : Embedding) (ids : list (list nat)) :
  (forall i, length (emb e i) = P) ->
  ids_shaped B N (num_embeddings e) ids ->
  exists y, Embedding_forward e ids = Ok y /\ shaped B N P y.
Proof.
  intros He [Hids F]. unfold Embedding_forward.
  assert (Hall : forallb (forallb (fun i => (i <? num_embeddings e)%nat)) ids = true).
  { apply forallb_forall. intros r Hr. rewrite Forall_forall in F.
    destruct (F r Hr) as [_ Fr]. apply forallb_forall. intros i Hi.
    rewrite Forall_forall in Fr. apply Nat.ltb_lt. now apply Fr. }
  rewrite Hall. eexists. split; [reflexivity |].
  split; [now rewrite length_map |].
  apply Forall_map. eapply Forall_impl; [| exact F].
  intros r [Hr _]. split; [now rewrite length_map |].
  apply Forall_map. apply Forall_forall. intros i _. apply He.
Qed.

Lemma prob_mask_like_length (B : nat) (p : R) (rand : nat -> R) :
  length (prob_mask_like B p rand) = B.
Proof.
  unfold prob_mask_like.
  destruct (Req_dec_T p 1); [apply repeat_length |].
  destruct (Req_dec_T p 0); [apply repeat_length |].
  now rewrite length_map, length_seq.
Qed.

Lemma where_cond_shaped (B N D : nat) (mask : list bool) (null_cond : vec) (cond : tensor3) :
  length mask = B -> length null_cond = D ->
  shaped B N D cond -> shaped B N D (where_cond mask null_cond cond).
Proof.
  intros Hm Hn [Hc F]. rewrite <- Hc in *. clear Hc B.
  unfold where_cond. revert mask Hm.
  induction F as [| c cond [Hr Fr] _ IH]; intros [| m mask] Hm; simpl in *;
    try discriminate.
  - split; [reflexivity | constructor].
  - destruct (IH mask) as [Hl Fl]; [congruence |].
    split; simpl; [now rewrite Hl |].
    constructor; [| exact Fl].
    destruct m; [| split; assumption].
    split; [now rewrite length_map |].
    apply Forall_map. apply Forall_forall. intros v _. exact Hn.
Qed.

Lemma where_ids_shaped (B N bound : nat) (mask : list bool) (null_id : nat)
    (ids : list (list nat)) :
  length mask = B -> (null_id < bound)%nat ->
  ids_shaped B N bound ids -> ids_shaped B N bound (where_ids mask null_id ids).
Proof.
  intros Hm Hn [Hc F]. rewrite <- Hc in *. clear Hc B.
  unfold where_ids. revert mask Hm.
  induction F as [| c ids [Hr Fr] _ IH]; intros [| m mask] Hm; simpl in *;
    try discriminate.
  - split; [reflexivity | constructor].
  - destruct (IH mask) as [Hl Fl]; [congruence |].
    split; simpl; [now rewrite Hl |].
    constructor; [| exact Fl].
    destruct m; [| split; assumption].
    split; [now rewrite length_map |].
    apply Forall_map. apply Forall_forall. intros v _. exact Hn.
Qed.

Lemma cfg_dropout_shaped (B N D bound : nat) (null_cond : vec) (null_id : nat)
    (cond : tensor3) (ids : list (list nat)) (p : R) (rand : nat -> R) :
  length null_cond = D -> (null_id < bound)%nat ->
  shaped B N D cond -> ids_shaped B N bound ids ->
  exists cond' ids',
    cfg_dropout null_cond null_id cond ids p rand = Ok (cond', ids') /\
    shaped B N D cond' /\ ids_shaped B N bound ids'.
Proof.
  intros Hn Hb Hc Hi. unfold cfg_dropout.
  destruct (Rlt_dec 0 p); [| now exists cond, ids].
  subst D. rewrite (rows_have_shaped _ _ _ _ Hc). simpl.
  assert (HB : shape_batch cond = B) by apply Hc.
  rewrite prob_mask_like_length, HB.
  rewrite (proj1 Hi), Nat.eqb_refl. simpl.
  eexists. eexists. split; [reflexivity |]. split.
  - apply where_cond_shaped; auto. now rewrite prob_mask_like_length.
  - apply where_ids_shaped; auto. now rewrite prob_mask_like_length.
Qed.

Lemma run_shaped (M : torch_modules) (D P : nat) (depth' : Z) (rotary : tensor2)
    (B N : nat) (HM : torch_contract M D P) (m : nat) :
  forall (k : nat) (stack : list tensor3) (x : tensor3),
    let n := Z.to_nat depth' in
    Nat.even n = true ->
    (k + m = n)%nat ->
    length stack = (if (k <=? n / 2)%nat then k else (n - k)%nat) ->
    Forall (shaped B N D) stack ->
    shaped B N D x ->
    exists st,
      Transformer.run rotary
        (map (Transformer.make_layer M (Z.of_nat D) depth') (seq k m)) (x, stack) = Ok st /\
      shaped B N D (fst st).
Proof.
  induction m as [| m IH]; intros k stack x n Heven Hk Hlen Hst Hx.
  - exists (x, stack). split; [reflexivity | exact Hx].
  - pose proof (even_half n Heven) as Hhalf.
    cbn [seq map Transformer.run].
    assert (Hblock : forall y, shaped B N D y ->
              shaped B N D
                (tadd (new_feedforward M k (tadd (new_attention M k rotary y) y))
                      (tadd (new_attention M k rotary y) y))).
    { intros y Hy.
      assert (Ha : shaped B N D (tadd (new_attention M k rotary y) y))
        by (apply tadd_shaped; [now apply (attention_shape M D P HM) | exact Hy]).
      apply tadd_shaped; [now apply (feedforward_shape M D P HM) | exact Ha]. }
    unfold Transformer.step at 1.
    cbn [Transformer.make_layer Transformer.skip_combiner Transformer.attn Transformer.ff].
    rewrite has_skip_nat. fold n.
    destruct (S k <=? n / 2)%nat eqn:E; cbn [negb bind].
    + apply Nat.leb_le in E.
      apply (IH (S k)); try assumption; try lia.
      * replace (k <=? n / 2)%nat with true in Hlen
          by (symmetry; apply Nat.leb_le; lia).
        fold n.
        replace (S k <=? n / 2)%nat with true
          by (symmetry; apply Nat.leb_le; lia).
        cbn [length]. f_equal. exact Hlen.
      * constructor; assumption.
      * now apply Hblock.
    + apply Nat.leb_gt in E.
      assert (Hpos : length stack = S (n - S k)).
      { rewrite Hlen. destruct (k <=? n / 2)%nat eqn:E1;
          [apply Nat.leb_le in E1 | apply Nat.leb_gt in E1]; lia. }
      destruct stack as [| s rest]; [discriminate |].
      apply Forall_cons_iff in Hst. destruct Hst as [Hs Hrest].
      destruct (cat_last_shaped _ _ _ _ _ _ Hx Hs) as (c & -> & Hc). cbn [bind].
      set (combiner := {| in_features := Z.to_nat (Z.of_nat D * 2);
                          out_features := Z.to_nat (Z.of_nat D);
                          lin := new_linear M k |}).
      assert (Hin : in_features combiner = (D + D)%nat) by (simpl; lia).
      assert (Hout : out_features combiner = D) by (simpl; lia).
      destruct (Linear_forward_shaped B N combiner c) as (y & -> & Hy).
      { intros v Hv. rewrite Hout. apply (combiner_shape M D P HM). now rewrite <- Hin. }
      { now rewrite Hin. }
      cbn [bind]. rewrite Hout in Hy.
      apply (IH (S k)); try assumption; try lia.
      * cbn [length] in Hpos. injection Hpos as Hpos. rewrite Hpos. fold n.
        replace (S k <=? n / 2)%nat with false
          by (symmetry; apply Nat.leb_gt; lia).
        reflexivity.
      * now apply Hblock.
Qed.

Lemma Transformer_forward_shaped (M : torch_modules) (D P : nat) (depth' : Z) (dh : nat)
    (B N : nat) (self : Transformer.t) (x : tensor3) :
  torch_contract M D P ->
  Transformer.init M (Z.of_nat D) depth' dh = Ok self ->
  shaped B N D x ->
  exists y, Transformer.forward self x = Ok y /\ shaped B N D y.
Proof.
  intros HM Hinit Hx. unfold Transformer.init in Hinit.
  destruct (divisible_by depth' 2) eqn:Hdiv; simpl in Hinit; [| discriminate].
  injection Hinit as <-.
  assert (Heven : Z.even depth' = true).
  { unfold divisible_by in Hdiv. rewrite Zmod_even in Hdiv.
    destruct (Z.even depth'); [reflexivity | discriminate]. }
  unfold Transformer.forward. cbn [Transformer.layers Transformer.rotary_emb].
  destruct (run_shaped M D P depth' (RotaryEmbedding.forward
              (RotaryEmbedding.init dh 10000) (shape_seq x)) B N HM
              (Z.to_nat depth') 0 [] x
              (even_to_nat _ Heven) eq_refl eq_refl (Forall_nil _) Hx)
    as (st & -> & Hst).
  exists (fst st). split; [reflexivity | exact Hst].
Qed.

Lemma sinu_forward_shaped (M : torch_modules) (D P : nat) (self : LearnedSinusoidalPosEmb.t)
    (times : list R) :
  torch_contract M D P ->
  LearnedSinusoidalPosEmb.init (Z.of_nat D) (new_sinu_weights M) = Ok self ->
  shaped2 (length times) D (LearnedSinusoidalPosEmb.forward self times).
Proof.
  intros HM Hinit. unfold LearnedSinusoidalPosEmb.init in Hinit.
  destruct (divisible_by (Z.of_nat D) 2) eqn:Hdiv; simpl in Hinit; [| discriminate].
  injection Hinit as <-.
  unfold LearnedSinusoidalPosEmb.forward. cbn [LearnedSinusoidalPosEmb.weights].
  split; [now rewrite length_map |].
  apply Forall_map. apply Forall_forall. intros tb _.
  rewrite length_app, !length_map, (sinu_weights_shape M D P HM).
  unfold divisible_by in Hdiv. apply Z.eqb_eq in Hdiv.
  pose proof (Z.div_mod (Z.of_nat D) 2 ltac:(lia)) as Hdm.
  lia.
Qed.

Lemma pack_time_shaped (B N D : nat) (time_emb : tensor2) (x : tensor3) :
  shaped2 B D time_emb -> shaped B N D x ->
  exists packed,
    pack_time time_emb x = Ok (packed, [1%nat; shape_seq x]) /\
    shaped B (S N) D packed /\
    (x <> [] -> shape_seq x = N).
Proof.
  intros [Ht Ft] [Hx Fx]. unfold pack_time.
  assert (Hlen : length time_emb = length x) by congruence.
  assert (Hrows : rows_have (length (hd [] time_emb)) x = true).
  { destruct x as [| r x]; [reflexivity |].
    destruct time_emb as [| v time_emb]; [discriminate |].
    apply Forall_cons_iff in Ft. destruct Ft as [Hv _]. simpl hd.
    rewrite Hv. apply (rows_have_shaped B N D). split; assumption. }
  rewrite Hlen, Nat.eqb_refl, Hrows. simpl.
  eexists. split; [reflexivity |]. split; [split |].
  - rewrite map2_length; [exact Ht | exact Hlen].
  - clear Hrows Ht Hx. revert x Hlen Fx.
    induction Ft as [| v time_emb Hv _ IH]; intros [| r x] Hlen Fx; simpl in *;
      try discriminate; constructor.
    + apply Forall_cons_iff in Fx. destruct Fx as [[Hr Fr] _].
      split; simpl; [now f_equal | constructor; assumption].
    + apply Forall_cons_iff in Fx. apply IH; [congruence | apply Fx].
  - intros Hne. destruct x as [| r x]; [contradiction |].
    apply Forall_cons_iff in Fx. unfold shape_seq. simpl. apply Fx.
Qed.

Lemma unpack_row (N : nat) (v : vec) (rest : tensor2) :
  length rest = N ->
  split_sizes [1%nat; N] (v :: rest) = Ok [[v]; rest].
Proof.
  intros H. cbn [split_sizes length Nat.leb skipn firstn bind].
  rewrite <- H, Nat.leb_refl, skipn_all, firstn_all. reflexivity.
Qed.

Lemma unpack_second_shaped (B N D Ns : nat) (y : tensor3) :
  shaped B (S N) D y -> (y <> [] -> Ns = N) ->
  exists out, unpack_second y [1%nat; Ns] = Ok out /\ shaped B N D out.
Proof.
  intros [Hy Fy] HNs. unfold unpack_second. subst B.
  destruct y as [| r0 y0] eqn:Ey; [exists []; repeat split; constructor |].
  rewrite (HNs ltac:(discriminate)). rewrite <- Ey in *. clear Ey HNs r0 y0.
  induction Fy as [| r y [Hr Fr] _ IH].
  - exists []. repeat split. constructor.
  - destruct IH as (out & Hout & Ho & Fo).
    destruct r as [| v rest]; [discriminate |].
    cbn [mapM]. rewrite (unpack_row N v rest) by (simpl in Hr; congruence).
    cbn [bind]. rewrite Hout. cbn [bind].
    eexists. split; [reflexivity |].
    apply Forall_cons_iff in Fr. destruct Fr as [_ Frest].
    split; simpl; [now rewrite Ho |].
    constructor; [| exact Fo].
    split; [simpl in Hr; congruence | exact Frest].
Qed.

(** C3: a model built by the constructor from modules that keep torch's
    shapes, called with [x] and [cond] of shape [[B, N, D]] ([D] the
    model's width), phoneme ids of shape [[B, N]] inside the vocabulary,
    [times] of shape [[B]] and no target, returns the prediction, and the
    prediction has shape [[B, N, D]]: the position put before the sequence
    is split off again by position count. *)
Theorem voicebox_inference_shape
    (M : torch_modules) (c : config) (self : VoiceBox.t) (B N D P : nat)
    (x cond : tensor3) (ids : list (list nat)) (times : list R)
    (p : R) (mask : option (list (list bool))) (rand : nat -> R)
    (HM : torch_contract M D P)
    (HD : dim c = Z.of_nat D)
    (HP : dim_phoneme_emb c = Z.of_nat P)
    (Hinit : VoiceBox.init M c = Ok self)
    (Hx : shaped B N D x)
    (Hcond : shaped B N D cond)
    (Hids : ids_shaped B N (num_phoneme_tokens c + 1) ids)
    (Htimes : length times = B) :
  exists out,
    VoiceBox.forward self x ids cond times p None mask rand = Ok (Logits out) /\
    shaped B N D out.
Proof.
  unfold VoiceBox.init in Hinit. rewrite HD, HP in Hinit.
  destruct (LearnedSinusoidalPosEmb.init (Z.of_nat D) (new_sinu_weights M))
    as [sinu |] eqn:Hsinu; [| discriminate].
  cbn [bind] in Hinit. unfold ConvPositionEmbed.init in Hinit.
  destruct (is_odd (conv_pos_embed_kernel_size c)); [| discriminate].
  cbn [assert_ bind] in Hinit.
  destruct (Transformer.init M (Z.of_nat D) (depth c) (dim_head c))
    as [tr |] eqn:Htr; [| discriminate].
  cbn [bind] in Hinit. injection Hinit as <-.
  unfold VoiceBox.forward.
  assert (Hlast : shape_last cond = shape_last x).
  { unfold shape_last. destruct Hx as [Hx Fx], Hcond as [Hc Fc]. subst B.
    destruct x as [| r x], cond as [| s cond]; try discriminate; [reflexivity |].
    apply Forall_cons_iff in Fx, Fc. destruct Fx as [[Hr Fr] _], Fc as [[Hs Fs] _].
    simpl. destruct r as [| v r], s as [| w s]; simpl in *; try congruence.
    apply Forall_cons_iff in Fr, Fs. destruct Fr as [Hv _], Fs as [Hw _]. congruence. }
  rewrite Hlast, Nat.eqb_refl. cbn [assert_ bind VoiceBox.null_cond VoiceBox.null_phoneme_id].
  destruct (cfg_dropout_shaped B N D (num_phoneme_tokens c + 1)
              (repeat 0 (Z.to_nat (Z.of_nat D))) (num_phoneme_tokens c)
              cond ids p rand) as (cond' & ids' & -> & Hc' & Hi');
    [rewrite repeat_length; lia | lia | assumption | assumption |].
  cbn [bind fst snd]. unfold VoiceBox.predict.
  cbn [VoiceBox.to_phoneme_emb VoiceBox.to_embed VoiceBox.conv_embed
       VoiceBox.sinu_pos_emb VoiceBox.transformer].
  destruct (Embedding_forward_shaped B N P
              {| num_embeddings := num_phoneme_tokens c + 1; emb := new_phoneme_emb M |}
              ids') as (pe & -> & Hpe);
    [apply (phoneme_emb_shape M D P HM) | exact Hi' |].
  cbn [bind]. unfold cat3.
  destruct (cat_last_shaped _ _ _ _ _ _ Hx Hpe) as (xp & -> & Hxp). cbn [bind].
  destruct (cat_last_shaped _ _ _ _ _ _ Hxp Hc') as (embed & -> & Hembed). cbn [bind].
  set (to_embed := {| in_features := Z.to_nat (Z.of_nat D * 2 + Z.of_nat P);
                      out_features := Z.to_nat (Z.of_nat D);
                      lin := new_to_embed M |}).
  assert (Hin : in_features to_embed = (D + P + D)%nat) by (simpl; lia).
  assert (Hout : out_features to_embed = D) by (simpl; lia).
  destruct (Linear_forward_shaped B N to_embed embed) as (e & -> & He).
  { intros v Hv. rewrite Hout. apply (to_embed_shape M D P HM). now rewrite <- Hin. }
  { now rewrite Hin. }
  cbn [bind]. rewrite Hout in He.
  unfold ConvPositionEmbed.forward. cbn [ConvPositionEmbed.dw_conv1d].
  assert (Hsum : shaped B N D (tadd (new_conv M e) e))
    by (apply tadd_shaped; [now apply (conv_shape M D P HM) | exact He]).
  pose proof (sinu_forward_shaped M D P sinu times HM Hsinu) as Htime.
  rewrite Htimes in Htime.
  destruct (pack_time_shaped B N D _ _ Htime Hsum) as (packed & -> & Hpacked & Hseq).
  cbn [bind fst snd].
  destruct (Transformer_forward_shaped M D P (depth c) (dim_head c) B (S N) tr packed
              HM Htr Hpacked) as (y & -> & Hy).
  cbn [bind].
  destruct (unpack_second_shaped B N D (shape_seq (tadd (new_conv M e) e)) y Hy)
    as (out & -> & Hout').
  { intros Hne. apply Hseq. intros Hnil.
    destruct Hy as [Hy _], Hsum as [Hs _]. rewrite Hnil in Hs. simpl in Hs.
    destruct y; [contradiction | simpl in Hy; lia]. }
  exists out. split; [reflexivity | exact Hout'].
Qed.

(** ** The small instance *)

Lemma toy_voicebox_init : VoiceBox.init toy_modules toy_config = Ok toy_voicebox.
Proof. reflexivity. Qed.

Lemma toy_duration_predictor_init :
  DurationPredictor.init toy_modules toy_config = Ok toy_duration_predictor.
Proof. reflexivity. Qed.

Lemma toy_modules_contract : torch_contract toy_modules 2 1.
Proof.
  constructor; intros; unfold toy_modules;
    cbn [new_linear new_attention new_feedforward new_to_embed new_phoneme_emb
         new_conv new_sinu_weights];
    try assumption; try reflexivity.
  - rewrite length_firstn. lia.
  - rewrite length_firstn. lia.
  - apply repeat_length.
Qed.

(** ** The properties on the small instance *)

Lemma forward_with_cond_scale_spec_witness :
  DurationPredictor.forward_with_cond_scale_calls
    toy_duration_predictor toy_x toy_ids toy_cond (Some toy_x) None (fun _ => 0) 1
  = ([0], DurationPredictor.forward
            toy_duration_predictor toy_x toy_ids toy_cond 0 (Some toy_x) None (fun _ => 0)) /\
  VoiceBox.forward_with_cond_scale
    toy_voicebox toy_x toy_ids toy_cond toy_times None None (fun _ => 0) 2
  = (logits <- VoiceBox.forward
                 toy_voicebox toy_x toy_ids toy_cond toy_times 0 None None (fun _ => 0) ;;
     null_logits <- VoiceBox.forward
                      toy_voicebox toy_x toy_ids toy_cond toy_times 1 None None (fun _ => 0) ;;
     Ok (value_lift2 Rplus null_logits
           (value_scale (value_lift2 Rminus logits null_logits) 2))).
Proof.
  split.
  - apply (forward_with_cond_scale_spec toy_duration_predictor toy_voicebox
             toy_x toy_cond toy_ids toy_times (Some toy_x) None (fun _ => 0) 1).
    reflexivity.
  - apply (forward_with_cond_scale_spec toy_duration_predictor toy_voicebox
             toy_x toy_cond toy_ids toy_times None None (fun _ => 0) 2).
    lra.
Defined.

Lemma voicebox_inference_shape_witness :
  exists out,
    VoiceBox.forward toy_voicebox toy_x toy_ids toy_cond toy_times 0 None None (fun _ => 0)
    = Ok (Logits out) /\
    shaped 1 1 2 out.
Proof.
  apply (voicebox_inference_shape toy_modules toy_config toy_voicebox 1 1 2 1).
  - exact toy_modules_contract.
  - reflexivity.
  - reflexivity.
  - reflexivity.
  - repeat constructor.
  - repeat constructor.
  - repeat constructor.
  - reflexivity.
Defined.

Lemma rotary_preserves_norm_and_inverts_witness :
  let pos := RotaryEmbedding.forward (RotaryEmbedding.init (2 * 1) 10000) 1 in
  exists r,
    apply_rotary_pos_emb pos [[3; 4]] = Ok r /\
    r = map2 (fun p v => rotated (firstn 1 p) v) pos [[3; 4]] /\
    shaped2 1 (2 * 1) r /\
    map l2norm r = map l2norm [[3; 4]] /\
    apply_rotary_pos_emb (map (map Ropp) pos) r = Ok [[3; 4]].
Proof.
  apply (rotary_preserves_norm_and_inverts 1 1 10000 [[3; 4]]).
  - lia.
  - repeat constructor.
Defined.

Lemma skip_connections_pair_mirror_layers_witness :
  exists self,
    Transformer.init toy_modules 2 2 2 = Ok self /\
    length (Transformer.layers self) = Z.to_nat 2 /\
    (forall k l, nth_error (Transformer.layers self) k = Some l ->
       (exists combiner, Transformer.skip_combiner l = Some combiner)
       <-> (Z.to_nat 2 / 2 < S k)%nat) /\
    forall x,
      Transformer.forward self x
      = (st <- paired_run (Z.to_nat 2)
                 (RotaryEmbedding.forward (Transformer.rotary_emb self) (shape_seq x))
                 (Transformer.layers self) 0 [] x ;;
         Ok (snd st)).
Proof.
  apply (skip_connections_pair_mirror_layers toy_modules 2 2 2).
  reflexivity.
Defined.

Lemma cond_drop_one_substitutes_null_witness :
  cfg_dropout [0; 0] 3 toy_cond toy_ids 1 (fun _ => 0) = Ok ([[[0; 0]]], [[3%nat]]).
Proof.
  apply (cond_drop_one_substitutes_null toy_duration_predictor toy_voicebox
           toy_x toy_cond toy_ids toy_times None None (fun _ => 0)).
  - reflexivity.
  - reflexivity.
  - reflexivity.
  - reflexivity.
Defined.

Lemma invalid_configurations_fail_fast_witness :
  Transformer.init toy_modules 2 3 2 = Err AssertionError /\
  ConvPositionEmbed.init toy_modules 2 4 None = Err AssertionError /\
  LearnedSinusoidalPosEmb.init 3 (new_sinu_weights toy_modules) = Err AssertionError /\
  DurationPredictor.init toy_modules odd_config = Err AssertionError /\
  VoiceBox.init toy_modules odd_config = Err AssertionError /\
  DurationPredictor.forward toy_duration_predictor toy_x toy_ids [[[1]]] 0 None None
    (fun _ => 0) = Err AssertionError /\
  VoiceBox.forward toy_voicebox toy_x toy_ids [[[1]]] toy_times 0 None None
    (fun _ => 0) = Err AssertionError.
Proof.
  destruct (invalid_configurations_fail_fast toy_modules odd_config 2 2%nat None
              (new_sinu_weights toy_modules) toy_duration_predictor toy_voicebox
              toy_x [[[1]]] toy_ids toy_times 0 None None (fun _ => 0))
    as (H1 & H2 & H3 & H4 & H5 & H6).
  split; [apply H1; reflexivity |].
  split; [apply H2; reflexivity |].
  split; [apply H3; reflexivity |].
  split; [apply H4; right; reflexivity |].
  split; [apply H5; right; right; reflexivity |].
  apply H6. unfold shape_last, toy_x. simpl. lia.
Defined.

Lemma fully_masked_loss_is_finite_witness :
  Forall (fun den => 0 < den /\ eps <= den) (clamp_min eps (mask_sum [[true; true]])) /\
  masked_per_example (elementwise abs_err [[[1]; [2]]] [[[0]; [0]]]) [[true; true]]
  = repeat 0 1 /\
  DurationPredictor.loss_of [[[1]; [2]]] (Some [[[0]; [0]]]) (Some [[true; true]])
  = Ok (Loss 0).
Proof.
  apply (fully_masked_loss_is_finite 1 2 1).
  - lia.
  - repeat constructor.
  - repeat constructor.
  - repeat constructor.
  - repeat constructor.
Defined.

Lemma all_false_mask_divides_by_eps_witness :
  masked_loss abs_err [[[1]; [2]]] [[[0]; [0]]] [[false; false]]
  = 100000 * INR 2 * mean_loss abs_err [[[1]; [2]]] [[[0]; [0]]].
Proof.
  apply (all_false_mask_divides_by_eps 1 2 1 [[[1]; [2]]] [[[0]; [0]]] [[false; false]]).
  - lia.
  - lia.
  - lia.
  - repeat constructor.
  - repeat constructor.
  - repeat constructor.
  - repeat constructor.
Defined.

(** * Further properties of the code *)

(** ** Valid configurations *)

Lemma divisible_by_2_even (n : Z) : divisible_by n 2 = Z.even n.
Proof.
  unfold divisible_by. rewrite Zmod_even. now destruct (Z.even n).
Qed.



(** ** The guidance dropout in general *)

Lemma repeat_map_seq {A : Type} (a : A) (B s : nat) :
  repeat a B = map (fun _ => a) (seq s B).
Proof.
  revert s. induction B as [| B IH]; intros s; simpl; [reflexivity |].
  f_equal. apply IH.
Qed.

(** X2: for uniform draws in [[0, 1)] the two shortcuts of
    [prob_mask_like] (all [True] at probability 1, all [False] at
    probability 0) give the mask the sampling branch would give: entry [b]
    is [True] exactly when draw [b] is below the probability. *)
Theorem prob_mask_like_agrees_with_sampling
    (B : nat) (prob : R) (rand : nat -> R)
    (Hrand : forall b, 0 <= rand b < 1) :
  prob_mask_like B prob rand
  = map (fun b => if Rlt_dec (rand b) prob then true else false) (seq 0 B).
Proof.
  unfold prob_mask_like.
  destruct (Req_dec_T prob 1) as [-> | _].
  - rewrite (repeat_map_seq true B 0). apply map_ext. intros b.
    destruct (Rlt_dec (rand b) 1) as [_ | Hn]; [reflexivity |].
    exfalso. apply Hn. apply Hrand.
  - destruct (Req_dec_T prob 0) as [-> | _]; [| reflexivity].
    rewrite (repeat_map_seq false B 0). apply map_ext. intros b.
    destruct (Rlt_dec (rand b) 0) as [Hlt | _]; [| reflexivity].
    exfalso. destruct (Hrand b). lra.
Qed.

Lemma prob_mask_like_agrees_with_sampling_witness :
  prob_mask_like 2 1 (fun _ => 0)
  = map (fun b => if Rlt_dec ((fun _ : nat => 0) b) 1 then true else false) (seq 0 2).
Proof.
  apply (prob_mask_like_agrees_with_sampling 2 1 (fun _ => 0)).
  intros b. lra.
Defined.

Lemma where_same_mask {A C : Type} (fa : A -> A) (fc : C -> C) (mask : list bool)
    (l : list A) (k : list C) (b : nat) (a : A) (c : C) :
  length mask = length l -> length mask = length k ->
  nth_error l b = Some a -> nth_error k b = Some c ->
  (nth_error (map2 (fun (m : bool) x => if m then fa x else x) mask l) b = Some a /\
   nth_error (map2 (fun (m : bool) x => if m then fc x else x) mask k) b = Some c) \/
  (nth_error (map2 (fun (m : bool) x => if m then fa x else x) mask l) b = Some (fa a) /\
   nth_error (map2 (fun (m : bool) x => if m then fc x else x) mask k) b = Some (fc c)).
Proof.
  revert l k b. induction mask as [| m mask IH]; intros [| x l] [| y k] b Hl Hk Ha Hc;
    simpl in *; try discriminate.
  - destruct b; discriminate.
  - destruct b as [| b]; simpl in *.
    + injection Ha as <-. injection Hc as <-.
      destruct m; [right | left]; split; reflexivity.
    + apply IH; congruence.
Qed.

(** X3: the guidance dropout is per example and joint: for a conditioning
    of the width of [null_cond] and ids over the same batch it succeeds at
    every probability, and each batch element either keeps both its
    conditioning and its phoneme ids, or has [null_cond] at every position
    and the null id at every position. *)
Theorem cfg_dropout_all_or_nothing
    (null_cond : vec) (null_id : nat) (cond : tensor3) (ids : list (list nat))
    (p : R) (rand : nat -> R)
    (Hrows : rows_have (length null_cond) cond = true)
    (Hlen : length ids = length cond) :
  exists cond' ids',
    cfg_dropout null_cond null_id cond ids p rand = Ok (cond', ids') /\
    forall b c r,
      nth_error cond b = Some c -> nth_error ids b = Some r ->
      (nth_error cond' b = Some c /\ nth_error ids' b = Some r) \/
      (nth_error cond' b = Some (map (fun _ => null_cond) c) /\
       nth_error ids' b = Some (map (fun _ => null_id) r)).
Proof.
  unfold cfg_dropout.
  destruct (Rlt_dec 0 p) as [Hp | Hp].
  - rewrite Hrows. cbn [negb].
    rewrite prob_mask_like_length. unfold shape_batch.
    rewrite Hlen, Nat.eqb_refl. cbn [negb].
    eexists. eexists. split; [reflexivity |].
    intros b c r Hc Hr. unfold where_cond, where_ids.
    apply (where_same_mask (map (fun _ : vec => null_cond))
             (map (fun _ : nat => null_id))); try assumption.
    + apply prob_mask_like_length.
    + rewrite prob_mask_like_length. now symmetry.
  - exists cond, ids. split; [reflexivity |].
    intros b c r Hc Hr. left. split; assumption.
Qed.

Lemma cfg_dropout_all_or_nothing_witness :
  exists cond' ids',
    cfg_dropout [0; 0] 3 toy_cond toy_ids (1 / 2) (fun _ => 0) = Ok (cond', ids') /\
    forall b c r,
      nth_error toy_cond b = Some c -> nth_error toy_ids b = Some r ->
      (nth_error cond' b = Some c /\ nth_error ids' b = Some r) \/
      (nth_error cond' b = Some (map (fun _ => [0; 0]) c) /\
       nth_error ids' b = Some (map (fun _ => 3%nat) r)).
Proof.
  apply (cfg_dropout_all_or_nothing [0; 0] 3 toy_cond toy_ids (1 / 2) (fun _ => 0)).
  - reflexivity.
  - reflexivity.
Defined.

(** ** Sinusoidal time embedding *)

Lemma sum_sq_sin_cos (l : list R) :
  sum_sq (map sin l) + sum_sq (map cos l) = INR (length l).
Proof.
  unfold sum_sq. induction l as [| x l IH]; [simpl; lra |].
  cbn [map sum fold_right length]. rewrite S_INR.
  unfold sum in IH. pose proof (sin2_cos2 x) as H. unfold Rsqr in H. lra.
Qed.

(** X4: [LearnedSinusoidalPosEmb.forward] returns one row per time; every
    row has twice as many entries as there are weights, all between -1
    and 1, and its squares add up to the number of weights, whatever the
    times and the weights are. *)
Theorem sinusoidal_rows_bounded
    (self : LearnedSinusoidalPosEmb.t) (times : list R) :
  let half_dim := length (LearnedSinusoidalPosEmb.weights self) in
  length (LearnedSinusoidalPosEmb.forward self times) = length times /\
  Forall (fun row : vec =>
            length row = (2 * half_dim)%nat /\
            sum_sq row = INR half_dim /\
            Forall (fun v => -1 <= v <= 1) row)
         (LearnedSinusoidalPosEmb.forward self times).
Proof.
  intros half_dim. unfold LearnedSinusoidalPosEmb.forward.
  split; [apply length_map |].
  apply Forall_map. apply Forall_forall. intros tb _.
  split; [| split].
  - rewrite length_app, !length_map. unfold half_dim. lia.
  - rewrite sum_sq_app, sum_sq_sin_cos. now rewrite length_map.
  - apply Forall_app. split; apply Forall_map; apply Forall_forall; intros w _.
    + apply SIN_bound.
    + apply COS_bound.
Qed.

(** X5: a [LearnedSinusoidalPosEmb] built for a non-negative even [dim]
    embeds every time as a vector of exactly [dim] entries, and at time 0
    as [dim / 2] zeros followed by [dim / 2] ones. *)
Theorem sinusoidal_width_is_dim
    (d : Z) (w : nat -> vec) (self : LearnedSinusoidalPosEmb.t) (times : list R)
    (Hd : (0 <= d)%Z)
    (Hw : forall n, length (w n) = n)
    (Hinit : LearnedSinusoidalPosEmb.init d w = Ok self) :
  Forall (fun row : vec => length row = Z.to_nat d)
         (LearnedSinusoidalPosEmb.forward self times) /\
  LearnedSinusoidalPosEmb.forward self [0]
  = [repeat 0 (Z.to_nat (d / 2)) ++ repeat 1 (Z.to_nat (d / 2))].
Proof.
  unfold LearnedSinusoidalPosEmb.init in Hinit.
  destruct (divisible_by d 2) eqn:Hdiv; simpl in Hinit; [| discriminate].
  injection Hinit as <-.
  unfold LearnedSinusoidalPosEmb.forward. cbn [LearnedSinusoidalPosEmb.weights].
  split.
  - apply Forall_map. apply Forall_forall. intros tb _.
    rewrite length_app, !length_map, Hw.
    unfold divisible_by in Hdiv. apply Z.eqb_eq in Hdiv.
    pose proof (Z.div_mod d 2 ltac:(lia)) as Hdm. lia.
  - cbn [map]. f_equal.
    rewrite <- (Hw (Z.to_nat (d / 2))) at 3 4.
    generalize (w (Z.to_nat (d / 2))). intros l.
    rewrite !map_map. f_equal.
    + induction l as [| x l IH]; simpl; [reflexivity |].
      rewrite IH. f_equal.
      replace (0 * x * 2 * PI) with 0 by ring. apply sin_0.
    + induction l as [| x l IH]; simpl; [reflexivity |].
      rewrite IH. f_equal.
      replace (0 * x * 2 * PI) with 0 by ring. apply cos_0.
Qed.

Lemma sinusoidal_width_is_dim_witness :
  Forall (fun row : vec => length row = Z.to_nat 2)
         (LearnedSinusoidalPosEmb.forward (VoiceBox.sinu_pos_emb toy_voicebox) toy_times) /\
  LearnedSinusoidalPosEmb.forward (VoiceBox.sinu_pos_emb toy_voicebox) [0]
  = [repeat 0 (Z.to_nat (2 / 2)) ++ repeat 1 (Z.to_nat (2 / 2))].
Proof.
  apply (sinusoidal_width_is_dim 2 (new_sinu_weights toy_modules)).
  - lia.
  - intros n. apply repeat_length.
  - reflexivity.
Defined.

(** ** The rotary angle table *)

Lemma double_div2_succ (n : nat) :
  (2 * Nat.div2 (n + 1))%nat = if Nat.even n then n else S n.
Proof.
  destruct (Nat.Even_or_Odd n) as [[q ->] | [q ->]].
  - replace (2 * q + 1)%nat with (q + q + 1)%nat by lia.
    rewrite div2_double_succ.
    rewrite (proj2 (Nat.even_spec (2 * q))) by (exists q; reflexivity). lia.
  - replace (2 * q + 1 + 1)%nat with (2 * S q)%nat by lia.
    rewrite Nat.div2_double.
    assert (Hodd : Nat.even (2 * q + 1) = false).
    { rewrite <- Nat.negb_odd.
      rewrite (proj2 (Nat.odd_spec (2 * q + 1))) by (exists q; reflexivity).
      reflexivity. }
    rewrite Hodd. lia.
Qed.

(** X6: [RotaryEmbedding.forward(seq_len)] has [seq_len] rows; every row
    consists of two equal halves of [ceil(dim / 2)] angles, so the table is
    [dim] wide for an even [dim] and [dim + 1] wide for an odd one. *)
Theorem rotary_table_shape (dim' seq_len : nat) (theta : R) :
  let pos := RotaryEmbedding.forward (RotaryEmbedding.init dim' theta) seq_len in
  let half := Nat.div2 (dim' + 1) in
  length pos = seq_len /\
  Forall (fun row : vec =>
            length row = (if Nat.even dim' then dim' else S dim') /\
            firstn half row = skipn half row) pos.
Proof.
  intros pos half. unfold pos, RotaryEmbedding.forward.
  split; [now rewrite length_map, length_seq |].
  apply Forall_map. apply Forall_forall. intros i _.
  set (freqs := map _ (RotaryEmbedding.inv_freq _)).
  assert (Hf : length freqs = half).
  { unfold freqs, RotaryEmbedding.init, RotaryEmbedding.arange_step2. simpl.
    now rewrite !length_map, length_seq. }
  split.
  - rewrite length_app, Hf, <- double_div2_succ. unfold half. lia.
  - rewrite <- Hf.
    rewrite firstn_app, skipn_app, firstn_all, skipn_all, Nat.sub_diag.
    simpl. now rewrite app_nil_r.
Qed.

Lemma rotate_pairs_zero (h : nat) (t1 t2 : vec) :
  length t1 = h -> length t2 = h ->
  rotate_pairs (repeat 0 h) t1 t2 = (t1, t2).
Proof.
  revert t1 t2. induction h as [| h IH]; intros [| u t1] [| v t2] H1 H2;
    simpl in *; try discriminate; try reflexivity.
  rewrite IH by congruence. unfold rotate_pair. simpl.
  rewrite cos_0, sin_0. f_equal; f_equal; ring.
Qed.

Lemma rotary_row_zero (rot : RotaryEmbedding.t) :
  RotaryEmbedding.forward rot 1
  = [repeat 0 (length (RotaryEmbedding.inv_freq rot))
     ++ repeat 0 (length (RotaryEmbedding.inv_freq rot))].
Proof.
  unfold RotaryEmbedding.forward. cbn [seq map]. f_equal.
  assert (H : map (fun f => INR 0 * f) (RotaryEmbedding.inv_freq rot)
              = repeat 0 (length (RotaryEmbedding.inv_freq rot))).
  { induction (RotaryEmbedding.inv_freq rot) as [| f l IH]; simpl; [reflexivity |].
    simpl in IH. rewrite IH. f_equal. ring. }
  now rewrite H.
Qed.

(** X7: the first position is not rotated: for an even head dimension
    [2 * h] with [h > 0] the angles of position 0 are all zero, and
    [apply_rotary_pos_emb] with the one-row table returns its input. *)
Theorem rotary_position_zero_is_identity
    (h : nat) (theta : R) (v : vec)
    (Hh : (0 < h)%nat)
    (Hv : length v = (2 * h)%nat) :
  let pos := RotaryEmbedding.forward (RotaryEmbedding.init (2 * h) theta) 1 in
  pos = [repeat 0 (2 * h)] /\
  apply_rotary_pos_emb pos [v] = Ok [v].
Proof.
  intros pos. unfold pos. rewrite rotary_row_zero.
  assert (Hlen : length (RotaryEmbedding.inv_freq (RotaryEmbedding.init (2 * h) theta)) = h).
  { unfold RotaryEmbedding.init, RotaryEmbedding.arange_step2. simpl.
    rewrite !length_map, length_seq.
    replace (h + (h + 0) + 1)%nat with (h + h + 1)%nat by lia.
    apply div2_double_succ. }
  rewrite Hlen. split.
  - rewrite <- repeat_app. do 2 f_equal. lia.
  - cbn [apply_rotary_pos_emb].
    rewrite <- (firstn_skipn h v) at 1.
    rewrite apply_rotary_row;
      rewrite ?repeat_length, ?length_firstn, ?length_skipn; try lia.
    cbn [bind].
    rewrite rotate_pairs_zero
      by (rewrite ?length_firstn, ?length_skipn; lia).
    cbn [fst snd]. now rewrite firstn_skipn.
Qed.

Lemma rotary_position_zero_is_identity_witness :
  let pos := RotaryEmbedding.forward (RotaryEmbedding.init (2 * 1) 10000) 1 in
  pos = [repeat 0 (2 * 1)] /\
  apply_rotary_pos_emb pos [[3; 4]] = Ok [[3; 4]].
Proof.
  apply (rotary_position_zero_is_identity 1 10000 [3; 4]).
  - lia.
  - reflexivity.
Defined.

(** ** Half rotation and composition of rotations *)

(** X8: [rotate_half] raises on a last axis of size 1, on a size of at
    least 2 it keeps the length; on an even length applying it twice
    negates the vector. *)
Theorem rotate_half_involution_up_to_sign (x : vec) :
  (length x = 1%nat -> rotate_half x = Err ShapeError) /\
  ((2 <= length x)%nat ->
     exists y, rotate_half x = Ok y /\ length y = length x) /\
  ((2 <= length x)%nat -> Nat.even (length x) = true ->
     (y <- rotate_half x ;; rotate_half y) = Ok (map Ropp x)).
Proof.
  split; [| split].
  - intros H. unfold rotate_half, chunk2. now rewrite H.
  - intros H. unfold rotate_half, chunk2.
    destruct (length x <? 2)%nat eqn:E; [apply Nat.ltb_lt in E; lia |].
    cbn [bind fst snd]. eexists. split; [reflexivity |].
    rewrite length_app, length_map, length_skipn, length_firstn.
    assert (Nat.div2 (length x + 1) <= length x)%nat.
    { pose proof (double_div2_succ (length x)) as Hd.
      destruct (Nat.even (length x)); lia. }
    lia.
  - intros H Heven.
    pose proof (double_div2_succ (length x)) as Hd. rewrite Heven in Hd.
    set (h := Nat.div2 (length x + 1)) in *.
    assert (H1 : length (firstn h x) = h) by (rewrite length_firstn; lia).
    assert (H2 : length (skipn h x) = h) by (rewrite length_skipn; lia).
    rewrite <- (firstn_skipn h x) at 1.
    rewrite rotate_half_app by lia. cbn [bind].
    rewrite rotate_half_app by (rewrite ?length_map; lia).
    rewrite <- map_app, firstn_skipn. reflexivity.
Qed.

Lemma rotate_half_involution_up_to_sign_witness :
  (y <- rotate_half [1; 2; 3; 4] ;; rotate_half y) = Ok (map Ropp [1; 2; 3; 4]).
Proof.
  apply (rotate_half_involution_up_to_sign [1; 2; 3; 4]).
  - simpl. lia.
  - reflexivity.
Defined.

Lemma rotate_pairs_compose (a b t1 t2 : vec) :
  length b = length a -> length t1 = length a -> length t2 = length a ->
  rotate_pairs b (fst (rotate_pairs a t1 t2)) (snd (rotate_pairs a t1 t2))
  = rotate_pairs (map2 Rplus a b) t1 t2.
Proof.
  revert b t1 t2.
  induction a as [| x a IH]; intros [| y b] [| u t1] [| v t2] Hb H1 H2;
    simpl in *; try discriminate; try reflexivity.
  rewrite IH by congruence. unfold rotate_pair. cbn [fst snd].
  rewrite cos_plus, sin_plus. f_equal; f_equal; ring.
Qed.

Lemma firstn_app_len {A : Type} (n : nat) (l m : list A) :
  length l = n -> firstn n (l ++ m) = l.
Proof.
  intros <-. rewrite firstn_app, firstn_all, Nat.sub_diag. simpl. apply app_nil_r.
Qed.

Lemma skipn_app_len {A : Type} (n : nat) (l m : list A) :
  length l = n -> skipn n (l ++ m) = m.
Proof.
  intros <-. rewrite skipn_app, skipn_all, Nat.sub_diag. reflexivity.
Qed.

Lemma rotated_compose (a b v : vec) :
  (0 < length a)%nat -> length b = length a -> length v = (2 * length a)%nat ->
  rotated b (rotated a v) = rotated (map2 Rplus a b) v.
Proof.
  intros Hpos Hb Hv. unfold rotated.
  rewrite map2_length by (now symmetry). rewrite Hb.
  set (t1 := firstn (length a) v). set (t2 := skipn (length a) v).
  assert (H1 : length t1 = length a) by (unfold t1; rewrite length_firstn; lia).
  assert (H2 : length t2 = length a) by (unfold t2; rewrite length_skipn; lia).
  destruct (rotate_pairs_length a t1 t2 H1 H2) as [L1 L2].
  rewrite (firstn_app_len _ _ _ L1), (skipn_app_len _ _ _ L1).
  now rewrite rotate_pairs_compose.
Qed.

(** X9: rotations compose by adding angles: on vectors of even size [2 * h]
    applying [apply_rotary_pos_emb] with the table of half-rows [A] and
    then with the table of half-rows [B] is applying it once with the
    table of the sums. *)
Theorem rotary_angles_add
    (h : nat) (A B : list vec) (t : tensor2)
    (Hh : (0 < h)%nat)
    (HA : Forall (fun a : vec => length a = h) A)
    (HB : Forall (fun b : vec => length b = h) B)
    (HAB : length B = length A)
    (Ht : shaped2 (length A) (2 * h) t) :
  let dup (T : list vec) := map (fun a : vec => a ++ a) T in
  (r <- apply_rotary_pos_emb (dup A) t ;; apply_rotary_pos_emb (dup B) r)
  = apply_rotary_pos_emb (dup (map2 (map2 Rplus) A B)) t.
Proof.
  intros dup. subst dup. cbv beta.
  destruct (rotated_rows h A t Hh HA Ht) as (EA & SA & _ & _).
  assert (SA' : shaped2 (length B) (2 * h) (map2 rotated A t))
    by (destruct SA as [S1 S2]; split; [exact (eq_trans S1 (eq_sym HAB)) | exact S2]).
  destruct (rotated_rows h B _ Hh HB SA') as (EB & _ & _ & _).
  assert (HS : Forall (fun a : vec => length a = h) (map2 (map2 Rplus) A B)).
  { clear - HA HB HAB. revert B HB HAB.
    induction HA as [| a A Ha _ IH]; intros [| b B] HB HAB; simpl in *;
      try discriminate; constructor.
    - apply Forall_cons_iff in HB. destruct HB as [Hb _].
      rewrite map2_length; [exact Ha | exact (eq_trans Ha (eq_sym Hb))].
    - apply Forall_cons_iff in HB. apply IH; [apply HB | congruence]. }
  assert (HL : length (map2 (map2 Rplus) A B) = length A)
    by (apply map2_length; now symmetry).
  assert (Ht' : shaped2 (length (map2 (map2 Rplus) A B)) (2 * h) t)
    by (destruct Ht as [S1 S2]; split; [exact (eq_trans S1 (eq_sym HL)) | exact S2]).
  destruct (rotated_rows h _ t Hh HS Ht') as (ES & _ & _ & _).
  unfold tensor2, vec in *.
  rewrite EA. cbn [bind]. rewrite EB, ES. f_equal.
  destruct Ht as [Hlen Ft].
  clear - Hh HA HB HAB Hlen Ft. revert B t HB HAB Hlen Ft.
  induction HA as [| a A Ha _ IH]; intros [| b B] [| v t] HB HAB Hlen Ft;
    simpl in *; try discriminate; try reflexivity.
  apply Forall_cons_iff in HB, Ft. destruct HB as [Hb HB], Ft as [Hv Ft].
  f_equal.
  - apply rotated_compose; lia.
  - apply IH; try assumption; congruence.
Qed.

Lemma rotary_angles_add_witness :
  (r <- apply_rotary_pos_emb (map (fun a : vec => a ++ a) [[1]]) [[3; 4]] ;;
   apply_rotary_pos_emb (map (fun a : vec => a ++ a) [[2]]) r)
  = apply_rotary_pos_emb
      (map (fun a : vec => a ++ a) (map2 (map2 Rplus) [[1]] [[2]])) [[3; 4]].
Proof.
  apply (rotary_angles_add 1 [[1]] [[2]] [[3; 4]]).
  - lia.
  - repeat constructor.
  - repeat constructor.
  - reflexivity.
  - repeat constructor.
Defined.

(** ** The transformer as a whole *)

(** X10: a transformer built by the constructor for width [D] from modules
    that keep torch's shapes maps every input of shape [[B, N, D]] to an
    output of the same shape, without raising. *)
Theorem transformer_preserves_shape
    (M : torch_modules) (D P : nat) (depth' : Z) (dh B N : nat)
    (self : Transformer.t) (x : tensor3)
    (HM : torch_contract M D P)
    (Hinit : Transformer.init M (Z.of_nat D) depth' dh = Ok self)
    (Hx : shaped B N D x) :
  exists y, Transformer.forward self x = Ok y /\ shaped B N D y.
Proof.
  exact (Transformer_forward_shaped M D P depth' dh B N self x HM Hinit Hx).
Qed.

Lemma transformer_preserves_shape_witness :
  exists y, Transformer.forward toy_transformer toy_x = Ok y /\ shaped 1 1 2 y.
Proof.
  apply (transformer_preserves_shape toy_modules 2 1 2 2 1 1 toy_transformer toy_x).
  - exact toy_modules_contract.
  - reflexivity.
  - repeat constructor.
Defined.

Lemma cat_rows_err (a b : tensor2) (e : exn) : cat_rows a b = Err e -> e = ShapeError.
Proof.
  revert b. induction a as [| u a IH]; intros [| v b] H; simpl in H;
    try discriminate; try (injection H as <-; reflexivity).
  destruct (cat_rows a b) eqn:E; simpl in H; [discriminate |].
  injection H as <-. now apply (IH b).
Qed.

Lemma cat_last_err (a b : tensor3) (e : exn) : cat_last a b = Err e -> e = ShapeError.
Proof.
  revert b. induction a as [| u a IH]; intros [| v b] H; simpl in H;
    try discriminate; try (injection H as <-; reflexivity).
  destruct (cat_rows u v) eqn:E; simpl in H.
  - destruct (cat_last a b) eqn:E'; simpl in H; [discriminate |].
    injection H as <-. now apply (IH b).
  - injection H as <-. now apply (cat_rows_err u v).
Qed.

Lemma run_stack (M : torch_modules) (dim' depth' : Z) (rotary : tensor2) (m : nat) :
  forall (k : nat) (stack : list tensor3) (x : tensor3),
    let n := Z.to_nat depth' in
    Nat.even n = true ->
    (k + m = n)%nat ->
    length stack = (if (k <=? n / 2)%nat then k else (n - k)%nat) ->
    match Transformer.run rotary
            (map (Transformer.make_layer M dim' depth') (seq k m)) (x, stack) with
    | Ok st => snd st = []
    | Err e => e = ShapeError
    end.
Proof.
  induction m as [| m IH]; intros k stack x n Heven Hk Hlen;
    pose proof (even_half n Heven) as Hhalf.
  - cbn [seq map Transformer.run snd].
    destruct (k <=? n / 2)%nat eqn:E;
      [apply Nat.leb_le in E | apply Nat.leb_gt in E];
      destruct stack; try reflexivity; simpl in Hlen; lia.
  - cbn [seq map Transformer.run].
    unfold Transformer.step at 1.
    cbn [Transformer.make_layer Transformer.skip_combiner Transformer.attn Transformer.ff].
    rewrite has_skip_nat. fold n.
    destruct (S k <=? n / 2)%nat eqn:E; cbn [negb bind].
    + apply Nat.leb_le in E.
      apply (IH (S k)); try assumption; try lia. fold n.
      replace (k <=? n / 2)%nat with true in Hlen
        by (symmetry; apply Nat.leb_le; lia).
      replace (S k <=? n / 2)%nat with true
        by (symmetry; apply Nat.leb_le; lia).
      cbn [length]. f_equal. exact Hlen.
    + apply Nat.leb_gt in E.
      assert (Hpos : length stack = S (n - S k)).
      { rewrite Hlen. destruct (k <=? n / 2)%nat eqn:E1;
          [apply Nat.leb_le in E1 | apply Nat.leb_gt in E1]; lia. }
      destruct stack as [| s rest]; [discriminate |].
      destruct (cat_last x s) as [c | e] eqn:Ec; cbn [bind];
        [| now apply (cat_last_err x s)].
      unfold Linear_forward.
      destruct (rows_have _ c); cbn [bind]; [| reflexivity].
      apply (IH (S k)); try assumption; try lia. fold n.
      cbn [length] in Hpos. injection Hpos as Hpos. rewrite Hpos.
      replace (S k <=? n / 2)%nat with false
        by (symmetry; apply Nat.leb_gt; lia).
      reflexivity.
Qed.

(** X11: in a transformer built by the constructor, whatever the modules
    compute, the pushes and pops of [skip_connects] balance: the forward
    loop never pops an empty list (the only exception it can end in is a
    shape mismatch), and when it completes the list is empty again. *)
Theorem skip_stack_balanced
    (M : torch_modules) (dim' depth' : Z) (dh : nat) (self : Transformer.t)
    (rotary : tensor2) (x : tensor3)
    (Hinit : Transformer.init M dim' depth' dh = Ok self) :
  match Transformer.run rotary (Transformer.layers self) (x, []) with
  | Ok st => snd st = []
  | Err e => e = ShapeError
  end /\
  Transformer.forward self x <> Err IndexError.
Proof.
  unfold Transformer.init in Hinit.
  destruct (divisible_by depth' 2) eqn:Hdiv; simpl in Hinit; [| discriminate].
  injection Hinit as <-.
  assert (Heven : Nat.even (Z.to_nat depth') = true).
  { apply even_to_nat. now rewrite <- divisible_by_2_even. }
  assert (Hrun : forall r,
            match Transformer.run r
                    (map (Transformer.make_layer M dim' depth') (seq 0 (Z.to_nat depth')))
                    (x, []) with
            | Ok st => snd st = []
            | Err e => e = ShapeError
            end).
  { intros r. apply (run_stack M dim' depth' r (Z.to_nat depth') 0 [] x Heven);
      reflexivity. }
  split; [apply Hrun |].
  unfold Transformer.forward. cbn [Transformer.layers Transformer.rotary_emb].
  specialize (Hrun (RotaryEmbedding.forward (RotaryEmbedding.init dh 10000) (shape_seq x))).
  destruct (Transformer.run _ _ _) as [st | e]; cbn [bind]; [discriminate |].
  subst e. discriminate.
Qed.

Lemma skip_stack_balanced_witness :
  match Transformer.run [] (Transformer.layers toy_transformer) (toy_x, []) with
  | Ok st => snd st = []
  | Err e => e = ShapeError
  end /\
  Transformer.forward toy_transformer toy_x <> Err IndexError.
Proof.
  apply (skip_stack_balanced toy_modules 2 2 2 toy_transformer [] toy_x).
  reflexivity.
Defined.

(** ** More on the losses *)

Lemma masked_row_agree (f : R -> R -> R) (mrow : list bool) (r r' trow : tensor2) :
  agree_row mrow r r' ->
  map2 (fun l (m : bool) => if m then 0 else l) (map mean (map2 (map2 f) r trow)) mrow
  = map2 (fun l (m : bool) => if m then 0 else l) (map mean (map2 (map2 f) r' trow)) mrow.
Proof.
  revert r r' trow.
  induction mrow as [| m mrow IH]; intros [| v r] [| v' r'] trow H;
    simpl in H; try contradiction.
  - reflexivity.
  - destruct H as [Hv H]. destruct trow as [| tv trow]; [reflexivity |].
    cbn [map2 map]. f_equal; [| now apply IH].
    destruct m; [reflexivity |]. now rewrite (Hv eq_refl).
Qed.

Lemma masked_per_example_agree (f : R -> R -> R) (mask : list (list bool))
    (x x' target : tensor3) :
  agree_unmasked mask x x' ->
  masked_per_example (elementwise f x target) mask
  = masked_per_example (elementwise f x' target) mask.
Proof.
  unfold masked_per_example, masked_fill, elementwise.
  revert x x' target.
  induction mask as [| mrow mask IH]; intros [| r x] [| r' x'] target H;
    simpl in H; try contradiction.
  - reflexivity.
  - destruct H as [Hr H]. destruct target as [| trow target]; [reflexivity |].
    cbn [map2 map mask_sum clamp_min]. f_equal.
    + now rewrite (masked_row_agree f mrow r r' trow Hr).
    + apply (IH x x' target H).
Qed.

(** X12: the masked losses of both models do not depend on what the model
    predicts at the positions where the mask is [True]: two predictions
    that agree wherever the mask is [False] get the same loss. *)
Theorem masked_loss_ignores_excluded_positions
    (mask : list (list bool)) (x x' target : tensor3)
    (Hagree : agree_unmasked mask x x') :
  DurationPredictor.loss_of x (Some target) (Some mask)
  = DurationPredictor.loss_of x' (Some target) (Some mask) /\
  VoiceBox.loss_of x (Some target) (Some mask)
  = VoiceBox.loss_of x' (Some target) (Some mask).
Proof.
  unfold DurationPredictor.loss_of, VoiceBox.loss_of, masked_loss.
  now rewrite !(masked_per_example_agree _ mask x x' target Hagree).
Qed.

Lemma masked_loss_ignores_excluded_positions_witness :
  DurationPredictor.loss_of [[[1]; [7]]] (Some [[[0]; [0]]]) (Some [[false; true]])
  = DurationPredictor.loss_of [[[1]; [9]]] (Some [[[0]; [0]]]) (Some [[false; true]]) /\
  VoiceBox.loss_of [[[1]; [7]]] (Some [[[0]; [0]]]) (Some [[false; true]])
  = VoiceBox.loss_of [[[1]; [9]]] (Some [[[0]; [0]]]) (Some [[false; true]]).
Proof.
  apply (masked_loss_ignores_excluded_positions [[false; true]]
           [[[1]; [7]]] [[[1]; [9]]] [[[0]; [0]]]).
  simpl. repeat split; intros; discriminate.
Defined.

Lemma sum_nonneg (l : list R) : Forall (fun v => 0 <= v) l -> 0 <= sum l.
Proof.
  intros F. induction F as [| v l Hv _ IH]; simpl; lra.
Qed.

Lemma mean_nonneg (l : list R) : Forall (fun v => 0 <= v) l -> 0 <= mean l.
Proof.
  intros F. unfold mean. destruct l as [| v l].
  - simpl. unfold Rdiv. rewrite Rmult_0_l. lra.
  - apply Rmult_le_pos; [now apply sum_nonneg |].
    apply Rlt_le, Rinv_0_lt_compat. apply lt_0_INR. simpl. lia.
Qed.

Lemma map2_nonneg (f : R -> R -> R) (a b : vec) :
  (forall u v, 0 <= f u v) -> Forall (fun v => 0 <= v) (map2 f a b).
Proof.
  intros Hf. revert b. induction a as [| u a IH]; intros [| v b]; simpl;
    constructor; [apply Hf | apply IH].
Qed.

Lemma flatten_elementwise_nonneg (f : R -> R -> R) (x target : tensor3) :
  (forall u v, 0 <= f u v) ->
  Forall (fun v => 0 <= v) (flatten (elementwise f x target)).
Proof.
  intros Hf. unfold flatten, elementwise. revert target.
  induction x as [| r x IH]; intros [| s target]; simpl; try constructor.
  apply Forall_app. split; [| apply IH].
  clear IH. revert s. induction r as [| v r IHr]; intros [| w s]; simpl;
    try constructor.
  apply Forall_app. split; [now apply map2_nonneg | apply IHr].
Qed.

Lemma masked_per_example_nonneg (f : R -> R -> R) (x target : tensor3)
    (mask : list (list bool)) :
  (forall u v, 0 <= f u v) ->
  Forall (fun v => 0 <= v) (masked_per_example (elementwise f x target) mask).
Proof.
  intros Hf. unfold masked_per_example, masked_fill, elementwise, mask_sum, clamp_min.
  revert target mask.
  induction x as [| r x IH]; intros [| s target] [| mrow mask]; simpl;
    try constructor; [| apply IH].
  apply Rmult_le_pos.
  - apply sum_nonneg. clear IH. revert s mrow.
    induction r as [| v r IHr]; intros [| w s] [| m mrow]; simpl; try constructor;
      [| apply IHr].
    destruct m; [lra |]. apply mean_nonneg. now apply map2_nonneg.
  - apply Rlt_le, Rinv_0_lt_compat.
    apply Rlt_le_trans with eps; [apply eps_pos | apply Rmax_r].
Qed.

Lemma abs_err_nonneg (u v : R) : 0 <= abs_err u v.
Proof. unfold abs_err. apply Rabs_pos. Qed.

Lemma sq_err_nonneg (u v : R) : 0 <= sq_err u v.
Proof. unfold sq_err. pose proof (Rle_0_sqr (u - v)) as H. unfold Rsqr in H. lra. Qed.

(** X13: whatever the inputs and the weights, [DurationPredictor.forward]
    never returns a prediction tensor, and every loss returned by it or by
    [VoiceBox.forward] called with a target, with or without a mask, is at
    least 0. *)
Theorem returned_losses_nonnegative
    (self_d : DurationPredictor.t) (self_v : VoiceBox.t)
    (x cond target : tensor3) (ids : list (list nat)) (times : list R) (p : R)
    (target_d : option tensor3) (mask : option (list (list bool))) (rand : nat -> R) :
  match DurationPredictor.forward self_d x ids cond p target_d mask rand with
  | Ok (Loss l) => 0 <= l
  | Ok (Logits _) => False
  | Err _ => True
  end /\
  match VoiceBox.forward self_v x ids cond times p (Some target) mask rand with
  | Ok (Loss l) => 0 <= l
  | Ok (Logits _) => False
  | Err _ => True
  end.
Proof.
  split.
  - unfold DurationPredictor.forward.
    destruct (assert_ _); cbn [bind]; [| exact I].
    destruct (cfg_dropout _ _ _ _ _ _); cbn [bind]; [| exact I].
    destruct (DurationPredictor.predict _ _ _ _) as [y |]; cbn [bind]; [| exact I].
    unfold DurationPredictor.loss_of.
    destruct mask as [m |], target_d as [tg |]; try exact I.
    + apply mean_nonneg, masked_per_example_nonneg, abs_err_nonneg.
    + apply mean_nonneg, flatten_elementwise_nonneg, abs_err_nonneg.
  - unfold VoiceBox.forward.
    destruct (assert_ _); cbn [bind]; [| exact I].
    destruct (cfg_dropout _ _ _ _ _ _); cbn [bind]; [| exact I].
    destruct (VoiceBox.predict _ _ _ _ _) as [y |]; cbn [bind]; [| exact I].
    unfold VoiceBox.loss_of.
    destruct mask as [m |].
    + apply mean_nonneg, masked_per_example_nonneg, sq_err_nonneg.
    + apply mean_nonneg, flatten_elementwise_nonneg, sq_err_nonneg.
Qed.

Lemma shape_last_shaped (B N D : nat) (x cond : tensor3) :
  shaped B N D x -> shaped B N D cond -> shape_last cond = shape_last x.
Proof.
  intros [Hx Fx] [Hc Fc]. unfold shape_last. subst B.
  destruct x as [| r x], cond as [| s cond]; try discriminate; [reflexivity |].
  apply Forall_cons_iff in Fx, Fc. destruct Fx as [[Hr Fr] _], Fc as [[Hs Fs] _].
  simpl. destruct r as [| v r], s as [| w s]; simpl in *; try congruence.
  apply Forall_cons_iff in Fr, Fs. destruct Fr as [Hv _], Fs as [Hw _]. congruence.
Qed.

Lemma DurationPredictor_predict_shaped
    (M : torch_modules) (c : config) (self : DurationPredictor.t) (B N D P : nat)
    (x cond : tensor3) (ids : list (list nat)) :
  torch_contract M D P ->
  dim c = Z.of_nat D -> dim_phoneme_emb c = Z.of_nat P ->
  DurationPredictor.init M c = Ok self ->
  shaped B N D x -> shaped B N D cond ->
  ids_shaped B N (num_phoneme_tokens c + 1) ids ->
  exists y, DurationPredictor.predict self x ids cond = Ok y /\ shaped B N D y.
Proof.
  intros HM HD HP Hinit Hx Hc Hi.
  unfold DurationPredictor.init in Hinit. rewrite HD, HP in Hinit.
  unfold ConvPositionEmbed.init in Hinit.
  destruct (is_odd (conv_pos_embed_kernel_size c)); [| discriminate].
  cbn [assert_ bind] in Hinit.
  destruct (Transformer.init M (Z.of_nat D) (depth c) (dim_head c))
    as [tr |] eqn:Htr; [| discriminate].
  cbn [bind] in Hinit. injection Hinit as <-.
  unfold DurationPredictor.predict.
  cbn [DurationPredictor.to_phoneme_emb DurationPredictor.to_embed
       DurationPredictor.conv_embed DurationPredictor.transformer].
  destruct (Embedding_forward_shaped B N P
              {| num_embeddings := num_phoneme_tokens c + 1; emb := new_phoneme_emb M |}
              ids) as (pe & -> & Hpe);
    [apply (phoneme_emb_shape M D P HM) | exact Hi |].
  cbn [bind]. unfold cat3.
  destruct (cat_last_shaped _ _ _ _ _ _ Hx Hpe) as (xp & -> & Hxp). cbn [bind].
  destruct (cat_last_shaped _ _ _ _ _ _ Hxp Hc) as (embed & -> & Hembed). cbn [bind].
  set (to_embed := {| in_features := Z.to_nat (Z.of_nat D * 2 + Z.of_nat P);
                      out_features := Z.to_nat (Z.of_nat D);
                      lin := new_to_embed M |}).
  assert (Hin : in_features to_embed = (D + P + D)%nat) by (simpl; lia).
  assert (Hout : out_features to_embed = D) by (simpl; lia).
  destruct (Linear_forward_shaped B N to_embed embed) as (e & -> & He).
  { intros v Hv. rewrite Hout. apply (to_embed_shape M D P HM). now rewrite <- Hin. }
  { now rewrite Hin. }
  cbn [bind]. rewrite Hout in He.
  unfold ConvPositionEmbed.forward. cbn [ConvPositionEmbed.dw_conv1d].
  apply (Transformer_forward_shaped M D P (depth c) (dim_head c) B N tr _ HM Htr).
  apply tadd_shaped; [now apply (conv_shape M D P HM) | exact He].
Qed.

(** X14: [DurationPredictor.forward] has no inference path: on a model
    built by the constructor and well-shaped inputs, where the prediction
    itself succeeds, a call without a target ends in an exception, with or
    without a mask and at every dropout probability, while a call with a
    target returns a scalar loss. *)
Theorem duration_predictor_needs_target
    (M : torch_modules) (c : config) (self : DurationPredictor.t) (B N D P : nat)
    (x cond : tensor3) (ids : list (list nat))
    (p : R) (mask : option (list (list bool))) (rand : nat -> R)
    (HM : torch_contract M D P)
    (HD : dim c = Z.of_nat D)
    (HP : dim_phoneme_emb c = Z.of_nat P)
    (Hinit : DurationPredictor.init M c = Ok self)
    (Hx : shaped B N D x)
    (Hcond : shaped B N D cond)
    (Hids : ids_shaped B N (num_phoneme_tokens c + 1) ids) :
  DurationPredictor.forward self x ids cond p None mask rand = Err TypeError /\
  forall target,
    exists l, DurationPredictor.forward self x ids cond p (Some target) mask rand
              = Ok (Loss l).
Proof.
  assert (Hnull : DurationPredictor.null_cond self = repeat 0 D /\
                  DurationPredictor.null_phoneme_id self = num_phoneme_tokens c).
  { unfold DurationPredictor.init in Hinit.
    destruct (ConvPositionEmbed.init _ _ _ _); [| discriminate].
    cbn [bind] in Hinit.
    destruct (Transformer.init _ _ _ _); [| discriminate].
    cbn [bind] in Hinit. injection Hinit as <-. simpl.
    rewrite HD, Nat2Z.id. split; reflexivity. }
  destruct Hnull as [Hnc Hnid].
  assert (Hfwd : forall target,
            DurationPredictor.forward self x ids cond p target mask rand
            = (y <- (cp <- cfg_dropout (repeat 0 D) (num_phoneme_tokens c) cond ids p rand ;;
                     DurationPredictor.predict self x (snd cp) (fst cp)) ;;
               DurationPredictor.loss_of y target mask)).
  { intros target. unfold DurationPredictor.forward.
    rewrite (shape_last_shaped _ _ _ _ _ Hx Hcond), Nat.eqb_refl, Hnc, Hnid.
    cbn [assert_ bind].
    destruct (cfg_dropout _ _ _ _ _ _); reflexivity. }
  destruct (cfg_dropout_shaped B N D (num_phoneme_tokens c + 1)
              (repeat 0 D) (num_phoneme_tokens c) cond ids p rand)
    as (cond' & ids' & Ecfg & Hc' & Hi');
    [apply repeat_length | lia | assumption | assumption |].
  destruct (DurationPredictor_predict_shaped M c self B N D P x cond' ids'
              HM HD HP Hinit Hx Hc' Hi') as (y & Ey & _).
  split.
  - rewrite Hfwd, Ecfg. cbn [bind fst snd]. rewrite Ey. cbn [bind].
    unfold DurationPredictor.loss_of. destruct mask; reflexivity.
  - intros target. rewrite Hfwd, Ecfg. cbn [bind fst snd]. rewrite Ey. cbn [bind].
    unfold DurationPredictor.loss_of. destruct mask; eexists; reflexivity.
Qed.

Lemma duration_predictor_needs_target_witness :
  DurationPredictor.forward toy_duration_predictor toy_x toy_ids toy_cond 0 None None
    (fun _ => 0) = Err TypeError /\
  forall target,
    exists l, DurationPredictor.forward toy_duration_predictor toy_x toy_ids toy_cond 0
                (Some target) None (fun _ => 0)
              = Ok (Loss l).
Proof.
  apply (duration_predictor_needs_target toy_modules toy_config toy_duration_predictor
           1 1 2 1).
  - exact toy_modules_contract.
  - reflexivity.
  - reflexivity.
  - reflexivity.
  - repeat constructor.
  - repeat constructor.
  - repeat constructor.
Defined.

(** ** Packing and unpacking the time token *)

Lemma unpack_packed_rows (N : nat) (time_emb : tensor2) (x : tensor3) :
  length time_emb = length x ->
  Forall (fun r : tensor2 => length r = N) x ->
  unpack_second (map2 cons time_emb x) [1%nat; N] = Ok x.
Proof.
  unfold unpack_second. revert x.
  induction time_emb as [| v time_emb IH]; intros [| r x] Hlen F;
    simpl in Hlen; try discriminate; [reflexivity |].
  apply Forall_cons_iff in F. destruct F as [Hr F].
  cbn [map2 mapM]. rewrite (unpack_row N v r Hr). cbn [bind].
  rewrite IH by (try assumption; congruence). reflexivity.
Qed.

(** X15: packing the time embedding in front of a sequence and unpacking
    again, with nothing in between, gives back the sequence: for [time_emb]
    of shape [[B, D]] and [x] of shape [[B, N, D]], [pack] succeeds and the
    second part of [unpack] is [x]. *)
Theorem pack_unpack_round_trip
    (B N D : nat) (time_emb : tensor2) (x : tensor3)
    (Ht : shaped2 B D time_emb)
    (Hx : shaped B N D x) :
  (xp <- pack_time time_emb x ;; unpack_second (fst xp) (snd xp)) = Ok x.
Proof.
  destruct (pack_time_shaped B N D time_emb x Ht Hx) as (packed & E & _ & Hseq).
  unfold pack_time in *.
  destruct ((length time_emb =? length x)%nat && _)%bool; [| discriminate].
  cbn [bind fst snd].
  destruct Ht as [Ht _], Hx as [Hx Fx].
  destruct x as [| r x].
  - destruct time_emb; [reflexivity | simpl in *; congruence].
  - rewrite (Hseq ltac:(discriminate)).
    apply unpack_packed_rows; [congruence |].
    eapply Forall_impl; [| exact Fx]. intros a [Ha _]. exact Ha.
Qed.

Lemma pack_unpack_round_trip_witness :
  (xp <- pack_time [[5; 6]] toy_x ;; unpack_second (fst xp) (snd xp)) = Ok toy_x.
Proof.
  apply (pack_unpack_round_trip 1 1 2 [[5; 6]] toy_x).
  - repeat constructor.
  - repeat constructor.
Defined.

(** ** Guidance scales 0 and 1 *)

Lemma map2_pointwise {A B : Type} (f : A -> B -> A) (a : list A) (b : list B) :
  length a = length b -> (forall u v, f u v = u) -> map2 f a b = a.
Proof.
  revert b. induction a as [| u a IH]; intros [| v b] H Hf; simpl in *;
    try discriminate; [reflexivity |].
  rewrite Hf, IH; [reflexivity | congruence | assumption].
Qed.

Lemma extrapolate_tensor (s : R) (B N D : nat) (t u : tensor3) :
  shaped B N D t -> shaped B N D u ->
  elementwise Rplus u (tmap (fun v => v * s) (elementwise Rminus t u))
  = elementwise (fun a b => b + (a - b) * s) t u.
Proof.
  unfold elementwise, tmap.
  intros [Ht Ft] [Hu Fu]. subst B. revert u Hu Fu.
  induction Ft as [| r t [Hr Fr] _ IH]; intros [| r' u] Hu Fu; simpl in *;
    try discriminate; [reflexivity |].
  apply Forall_cons_iff in Fu. destruct Fu as [[Hr' Fr'] Fu].
  f_equal; [| apply IH; [unfold tensor2, vec in *; congruence | assumption]].
  clear IH Fu Hu. subst N. revert r' Hr' Fr'.
  induction Fr as [| v r Hv _ IHr]; intros [| v' r'] Hr' Fr'; simpl in *;
    try discriminate; [reflexivity |].
  apply Forall_cons_iff in Fr'. destruct Fr' as [Hv' Fr'].
  f_equal; [| apply IHr; [unfold tensor2, vec in *; congruence | assumption]].
  clear IHr. cbv beta in Hv'. rewrite <- Hv' in Hv. clear Hv'.
  revert v Hv. induction v' as [| b v' IHv]; intros [| a v] Hv; simpl in *;
    try discriminate; [reflexivity |].
  f_equal. apply IHv. congruence.
Qed.

Lemma elementwise_left (f : R -> R -> R) (B N D : nat) (t u : tensor3) :
  shaped B N D t -> shaped B N D u -> (forall a b, f a b = a) ->
  elementwise f t u = t.
Proof.
  unfold elementwise. intros [Ht Ft] [Hu Fu] Hf. subst B. revert u Hu Fu.
  induction Ft as [| r t [Hr Fr] _ IH]; intros [| r' u] Hu Fu; simpl in *;
    try discriminate; [reflexivity |].
  apply Forall_cons_iff in Fu. destruct Fu as [[Hr' Fr'] Fu].
  f_equal; [| apply IH; [unfold tensor2, vec in *; congruence | assumption]].
  clear IH Fu Hu. subst N. revert r' Hr' Fr'.
  induction Fr as [| v r Hv _ IHr]; intros [| v' r'] Hr' Fr'; simpl in *;
    try discriminate; [reflexivity |].
  apply Forall_cons_iff in Fr'. destruct Fr' as [Hv' Fr'].
  f_equal; [| apply IHr; [unfold tensor2, vec in *; congruence | assumption]].
  apply map2_pointwise; [exact (eq_trans Hv (eq_sym Hv')) | exact Hf].
Qed.

Lemma elementwise_right (f : R -> R -> R) (B N D : nat) (t u : tensor3) :
  shaped B N D t -> shaped B N D u -> (forall a b, f a b = b) ->
  elementwise f t u = u.
Proof.
  unfold elementwise. intros [Ht Ft] [Hu Fu] Hf. subst B. revert u Hu Fu.
  induction Ft as [| r t [Hr Fr] _ IH]; intros [| r' u] Hu Fu; simpl in *;
    try discriminate; [reflexivity |].
  apply Forall_cons_iff in Fu. destruct Fu as [[Hr' Fr'] Fu].
  f_equal; [| apply IH; [unfold tensor2, vec in *; congruence | assumption]].
  clear IH Fu Hu. subst N. revert r' Hr' Fr'.
  induction Fr as [| v r Hv _ IHr]; intros [| v' r'] Hr' Fr'; simpl in *;
    try discriminate; [reflexivity |].
  apply Forall_cons_iff in Fr'. destruct Fr' as [Hv' Fr'].
  f_equal; [| apply IHr; [unfold tensor2, vec in *; congruence | assumption]].
  clear IHr. cbv beta in Hv'. rewrite <- Hv' in Hv. clear Hv'.
  revert v Hv. induction v' as [| b v' IHv]; intros [| a v] Hv; simpl in *;
    try discriminate; [reflexivity |].
  rewrite Hf. f_equal. apply IHv. congruence.
Qed.

(** X16: in exact arithmetic the guidance formula is consistent at its two
    ends: when the conditioned and the unconditioned pass return values of
    the same shape, [cond_scale = 0] returns the unconditioned value, and
    the formula at [cond_scale = 1] is the conditioned value, which is what
    the shortcut for [cond_scale == 1] returns without the second pass. *)
Theorem guidance_scale_endpoints
    (fwd : R -> result value) (logits null_logits : value)
    (Hl : fwd 0 = Ok logits)
    (Hn : fwd 1 = Ok null_logits)
    (Hshape : same_shape logits null_logits) :
  with_cond_scale fwd 0 = ([0; 1], Ok null_logits) /\
  with_cond_scale fwd 1 = ([0], Ok logits) /\
  value_lift2 Rplus null_logits
    (value_scale (value_lift2 Rminus logits null_logits) 1) = logits.
Proof.
  split; [| split].
  - unfold with_cond_scale. rewrite Hl, Hn.
    destruct (Req_dec_T 0 1) as [H01 | _]; [lra |].
    do 2 f_equal.
    destruct logits as [l | t], null_logits as [n | u]; simpl in Hshape;
      try contradiction; cbn [value_lift2 value_scale].
    + f_equal. ring.
    + destruct Hshape as (B & N & D & Ht & Hu). f_equal.
      rewrite (extrapolate_tensor 0 B N D t u Ht Hu).
      apply (elementwise_right _ B N D); try assumption. intros a b. ring.
  - rewrite with_cond_scale_one. now rewrite Hl.
  - destruct logits as [l | t], null_logits as [n | u]; simpl in Hshape;
      try contradiction; cbn [value_lift2 value_scale].
    + f_equal. ring.
    + destruct Hshape as (B & N & D & Ht & Hu). f_equal.
      rewrite (extrapolate_tensor 1 B N D t u Ht Hu).
      apply (elementwise_left _ B N D); try assumption. intros a b. ring.
Qed.

Lemma guidance_scale_endpoints_witness :
  with_cond_scale (fun p => Ok (Logits [[[p; 2]]])) 0 = ([0; 1], Ok (Logits [[[1; 2]]])) /\
  with_cond_scale (fun p => Ok (Logits [[[p; 2]]])) 1 = ([0], Ok (Logits [[[0; 2]]])) /\
  value_lift2 Rplus (Logits [[[1; 2]]])
    (value_scale (value_lift2 Rminus (Logits [[[0; 2]]]) (Logits [[[1; 2]]])) 1)
  = Logits [[[0; 2]]].
Proof.
  apply (guidance_scale_endpoints (fun p => Ok (Logits [[[p; 2]]]))).
  - reflexivity.
  - reflexivity.
  - exists 1%nat, 1%nat, 2%nat. split; repeat constructor.
Defined.

(** ** RMSNorm *)

Lemma sum_sq_repeat_0 (n : nat) : sum_sq (repeat 0 n) = 0.
Proof.
  induction n as [| n IH]; [reflexivity |].
  change (repeat 0 (S n)) with ([0] ++ repeat 0 n).
  rewrite sum_sq_app, IH. unfold sum_sq. simpl. lra.
Qed.

Lemma normalize_eps_pos : 0 < 1 / 1000000000000.
Proof. lra. Qed.

(** X17: [RMSNorm] maps the zero vector to the zero vector, whatever the
    gain: the norm 0 is replaced by the floor [1e-12] of [F.normalize], so
    nothing is divided by zero. *)
Theorem rmsnorm_zero_vector (self : RMSNorm.t) :
  RMSNorm.forward_vec self (repeat 0 (length (RMSNorm.gamma self)))
  = Ok (repeat 0 (length (RMSNorm.gamma self))) /\
  0 < Rmax (l2norm (repeat 0 (length (RMSNorm.gamma self)))) (1 / 1000000000000).
Proof.
  split.
  - unfold RMSNorm.forward_vec, RMSNorm.normalize.
    rewrite repeat_length, Nat.eqb_refl. f_equal.
    generalize (Rmax (l2norm (repeat 0 (length (RMSNorm.gamma self))))
                  (1 / 1000000000000)). intros n.
    generalize (RMSNorm.gamma self). intros g.
    induction g as [| y g IH]; simpl; [reflexivity |].
    rewrite IH. f_equal. unfold Rdiv. ring.
  - eapply Rlt_le_trans; [apply normalize_eps_pos | apply Rmax_r].
Qed.

Lemma sum_sq_scale (k : R) (v : vec) :
  sum_sq (map (fun x => x * k) v) = sum_sq v * (k * k).
Proof.
  unfold sum_sq. induction v as [| x v IH]; simpl; [lra |].
  unfold sum in *. rewrite IH. ring.
Qed.

Lemma sum_sq_nonneg (v : vec) : 0 <= sum_sq v.
Proof.
  unfold sum_sq. apply sum_nonneg. apply Forall_map, Forall_forall.
  intros x _. pose proof (Rle_0_sqr x) as H. unfold Rsqr in H. exact H.
Qed.

Lemma l2norm_scale (k : R) (v : vec) :
  0 <= k -> l2norm (map (fun x => x * k) v) = l2norm v * k.
Proof.
  intros Hk. unfold l2norm. rewrite sum_sq_scale.
  rewrite sqrt_mult; [| apply sum_sq_nonneg | nra].
  now rewrite sqrt_square.
Qed.

Lemma map2_gain_ones (k : R) (v : vec) :
  map2 (fun x g => x * k * g) v (repeat 1 (length v)) = map (fun x => x * k) v.
Proof.
  induction v as [| x v IH]; simpl; [reflexivity |].
  rewrite IH. f_equal. ring.
Qed.

(** X18: a freshly built [RMSNorm(dim)] (gain all ones) maps every vector
    of [dim] entries whose L2 norm is at least [1e-12] to a vector of
    [dim] entries of L2 norm [sqrt(dim)]. *)
Theorem rmsnorm_output_norm
    (dim' : nat) (v : vec)
    (Hlen : length v = dim')
    (Hnorm : 1 / 1000000000000 <= l2norm v) :
  exists out,
    RMSNorm.forward_vec (RMSNorm.init dim') v = Ok out /\
    length out = dim' /\
    l2norm out = sqrt (INR dim').
Proof.
  unfold RMSNorm.forward_vec, RMSNorm.init, RMSNorm.normalize.
  cbn [RMSNorm.gamma RMSNorm.scale].
  rewrite repeat_length, Hlen, Nat.eqb_refl.
  rewrite Rmax_left by exact Hnorm.
  eexists. split; [reflexivity |].
  assert (Hpos : 0 < l2norm v) by (pose proof normalize_eps_pos; lra).
  replace (repeat 1 dim') with (repeat 1 (length (map (fun x => x / l2norm v) v)))
    by (now rewrite length_map, Hlen).
  rewrite map2_gain_ones, map_map. split; [now rewrite length_map |].
  rewrite (map_ext (fun x => x / l2norm v * sqrt (INR dim'))
                   (fun x => x * (sqrt (INR dim') / l2norm v)))
    by (intros x; unfold Rdiv; ring).
  rewrite l2norm_scale.
  - field. lra.
  - apply Rmult_le_pos; [apply sqrt_pos |].
    apply Rlt_le, Rinv_0_lt_compat, Hpos.
Qed.

Lemma rmsnorm_output_norm_witness :
  exists out,
    RMSNorm.forward_vec (RMSNorm.init 2) [1; 0] = Ok out /\
    length out = 2%nat /\
    l2norm out = sqrt (INR 2).
Proof.
  apply (rmsnorm_output_norm 2 [1; 0]).
  - reflexivity.
  - unfold l2norm, sum_sq. simpl.
    replace (1 * 1 + (0 * 0 + 0)) with 1 by ring.
    rewrite sqrt_1. lra.
Defined.

(** X19: [RMSNorm] ignores the scale of its input: multiplying a vector by
    a positive factor does not change the output, as long as both norms
    stay at or above the floor [1e-12]. *)
Theorem rmsnorm_scale_invariant
    (self : RMSNorm.t) (c : R) (v : vec)
    (Hc : 0 < c)
    (Hv : 1 / 1000000000000 <= l2norm v)
    (Hcv : 1 / 1000000000000 <= c * l2norm v) :
  RMSNorm.forward_vec self (map (fun x => x * c) v) = RMSNorm.forward_vec self v.
Proof.
  unfold RMSNorm.forward_vec, RMSNorm.normalize.
  rewrite length_map.
  destruct (length v =? length (RMSNorm.gamma self))%nat; [| reflexivity].
  rewrite l2norm_scale by lra.
  rewrite !Rmax_left by lra.
  do 2 f_equal. rewrite map_map. apply map_ext. intros x.
  pose proof normalize_eps_pos. field. split; lra.
Qed.

Lemma rmsnorm_scale_invariant_witness :
  RMSNorm.forward_vec (RMSNorm.init 2) (map (fun x => x * 2) [1; 0])
  = RMSNorm.forward_vec (RMSNorm.init 2) [1; 0].
Proof.
  assert (H : l2norm [1; 0] = 1).
  { unfold l2norm, sum_sq. simpl.
    replace (1 * 1 + (0 * 0 + 0)) with 1 by ring. apply sqrt_1. }
  apply (rmsnorm_scale_invariant (RMSNorm.init 2) 2 [1; 0]).
  - lra.
  - rewrite H. lra.
  - rewrite H. lra.
Defined.

(** ** Splitting and merging attention heads *)

Lemma pieces_concat (d h : nat) :
  forall v : vec, length v = (h * d)%nat ->
    concat (map (fun i => firstn d (skipn (i * d) v)) (seq 0 h)) = v.
Proof.
  induction h as [| h IH]; intros v Hv.
  - destruct v; [reflexivity | discriminate].
  - cbn [seq map concat]. rewrite <- seq_shift, map_map.
    cbn [Nat.mul skipn].
    rewrite (map_ext (fun i => firstn d (skipn (S i * d) v))
                     (fun i => firstn d (skipn (i * d) (skipn d v)))).
    + rewrite IH by (rewrite length_skipn; simpl in Hv; lia).
      apply firstn_skipn.
    + intros i. rewrite skipn_skipn. do 2 f_equal. simpl. lia.
Qed.

Lemma split_vec_ok (h d : nat) (v : vec) :
  (0 < h)%nat -> length v = (h * d)%nat ->
  split_vec h v = Ok (map (fun i => firstn d (skipn (i * d) v)) (seq 0 h)).
Proof.
  intros Hh Hv. unfold split_vec.
  destruct (h =? 0)%nat eqn:E; [apply Nat.eqb_eq in E; lia |].
  rewrite Hv, (Nat.mul_comm h d), Nat.Div0.mod_mul, Nat.div_mul by lia.
  reflexivity.
Qed.

Lemma mapM_ok {A B : Type} (f : A -> result B) (g : A -> B) (l : list A) :
  Forall (fun a => f a = Ok (g a)) l -> mapM f l = Ok (map g l).
Proof.
  intros F. induction F as [| a l Ha _ IH]; simpl; [reflexivity |].
  now rewrite Ha, IH.
Qed.

Lemma map_nth_seq {A : Type} (d0 : A) (l : list A) :
  map (fun i => nth i l d0) (seq 0 (length l)) = l.
Proof.
  induction l as [| a l IH]; [reflexivity |].
  cbn [length seq map nth]. f_equal.
  rewrite <- seq_shift, map_map. exact IH.
Qed.

Lemma nth_head_of (i j : nat) (rows : list (list vec)) :
  nth j (head_of i rows) [] = nth i (nth j rows []) [].
Proof.
  unfold head_of. revert j. induction rows as [| p rows IH]; intros j; simpl.
  - destruct j, i; reflexivity.
  - destruct j; [reflexivity | apply IH].
Qed.

Lemma merge_split_seq (h d : nat) (s : tensor2) :
  (0 < h)%nat ->
  Forall (fun v : vec => length v = (h * d)%nat) s ->
  let rows := map (fun v => map (fun i => firstn d (skipn (i * d) v)) (seq 0 h)) s in
  let hs := map (fun i => head_of i rows) (seq 0 h) in
  merge_heads_seq (length (hd [] hs)) hs = s.
Proof.
  intros Hh F rows hs.
  assert (Hn : length (hd [] hs) = length s).
  { unfold hs. destruct h; [lia |]. cbn [seq map hd]. unfold head_of, rows.
    now rewrite !length_map. }
  rewrite Hn. unfold merge_heads_seq.
  rewrite <- (map_nth_seq [] s) at 2.
  apply map_ext_in. intros j Hj. apply in_seq in Hj.
  unfold hs. rewrite map_map.
  rewrite (map_ext (fun i => nth j (head_of i rows) [])
                   (fun i => nth i (nth j rows []) []))
    by (intros i; apply nth_head_of).
  assert (Hrow : nth j rows []
                 = map (fun i => firstn d (skipn (i * d) (nth j s []))) (seq 0 h)).
  { unfold rows.
    set (pieces := fun v : vec => map (fun i => firstn d (skipn (i * d) v)) (seq 0 h)).
    transitivity (nth j (map pieces s) (pieces [])).
    - apply nth_indep. rewrite length_map. simpl in Hj. exact (proj2 Hj).
    - apply (map_nth pieces). }
  assert (Hlen : length (nth j rows []) = h)
    by (now rewrite Hrow, length_map, length_seq).
  rewrite <- Hlen at 1. rewrite map_nth_seq, Hrow.
  apply pieces_concat.
  rewrite Forall_forall in F. apply F. apply nth_In. simpl in Hj. exact (proj2 Hj).
Qed.

(** X20: the two rearrangements of [Attention.forward] are inverse to each
    other: a tensor of shape [[B, N, h * d]] with [h > 0] heads is split
    into heads without an exception, and merging the heads again gives the
    tensor back. *)
Theorem split_merge_heads_round_trip
    (h d B N : nat) (t : tensor3)
    (Hh : (0 < h)%nat)
    (Ht : shaped B N (h * d) t) :
  exists q, split_heads h t = Ok q /\ length q = B /\ merge_heads q = t.
Proof.
  destruct Ht as [HB Ft]. unfold split_heads.
  set (pieces := fun v : vec => map (fun i => firstn d (skipn (i * d) v)) (seq 0 h)).
  set (heads_of := fun s : tensor2 =>
                     map (fun i => head_of i (map pieces s)) (seq 0 h)).
  assert (Hsplit : mapM (fun s : tensor2 =>
                           rows <- mapM (split_vec h) s ;;
                           Ok (map (fun i => head_of i rows) (seq 0 h))) t
                   = Ok (map heads_of t)).
  { apply mapM_ok. eapply Forall_impl; [| exact Ft].
    intros s [_ Fs]. rewrite (mapM_ok (split_vec h) pieces); [reflexivity |].
    eapply Forall_impl; [| exact Fs]. intros v Hv. now apply split_vec_ok. }
  rewrite Hsplit. eexists. split; [reflexivity |]. split; [now rewrite length_map |].
  unfold merge_heads. rewrite map_map.
  rewrite <- (map_id t) at 2. apply map_ext_in. intros s Hs.
  rewrite Forall_forall in Ft. destruct (Ft s Hs) as [_ Fs].
  apply (merge_split_seq h d s Hh Fs).
Qed.

Lemma split_merge_heads_round_trip_witness :
  exists q, split_heads 2 [[[1; 2; 3; 4]]] = Ok q /\ length q = 1%nat /\
            merge_heads q = [[[1; 2; 3; 4]]].
Proof.
  apply (split_merge_heads_round_trip 2 2 1 1 [[[1; 2; 3; 4]]]).
  - lia.
  - repeat constructor.
Defined.

(** ** The rotary call of the attention block *)

Lemma rotary_row_ok (pos t : vec) :
  length pos = length t -> (2 <= length t)%nat ->
  exists r, apply_rotary_pos_emb_row pos t = Ok r.
Proof.
  intros Hlen H2. unfold apply_rotary_pos_emb_row.
  rewrite vmul_ok by (now rewrite length_map). cbn [bind].
  unfold rotate_half, chunk2.
  destruct (length t <? 2)%nat eqn:E; [apply Nat.ltb_lt in E; lia |].
  cbn [bind fst snd].
  assert (Hc : (Nat.div2 (length t + 1) <= length t)%nat).
  { pose proof (double_div2_succ (length t)) as Hd.
    destruct (Nat.even (length t)); lia. }
  rewrite vmul_ok
    by (rewrite length_app, !length_map, length_skipn, length_firstn; lia).
  cbn [bind]. rewrite vadd_checked_ok; [eexists; reflexivity |].
  rewrite !map2_length;
    rewrite ?length_app, ?length_map, ?length_skipn, ?length_firstn; lia.
Qed.

Lemma rotary_table_ok (d : nat) (pos t : tensor2) :
  (2 <= d)%nat -> length pos = length t ->
  Forall (fun p : vec => length p = d) pos ->
  Forall (fun v : vec => length v = d) t ->
  exists r, apply_rotary_pos_emb pos t = Ok r.
Proof.
  intros Hd Hlen Fp. revert t Hlen.
  induction Fp as [| p pos Hp _ IH]; intros [| v t] Hlen Ft; simpl in *;
    try discriminate.
  - now exists [].
  - apply Forall_cons_iff in Ft. destruct Ft as [Hv Ft].
    destruct (rotary_row_ok p v) as (r & ->); [congruence | lia |].
    destruct (IH t) as (rs & ->); [congruence | assumption |].
    eexists. reflexivity.
Qed.

Lemma map2_mul_zero (l : vec) : map2 Rmult (repeat 0 (length l)) l = repeat 0 (length l).
Proof.
  induction l as [| x l IH]; simpl; [reflexivity |].
  rewrite IH. f_equal. ring.
Qed.

Lemma map_opp_zero (n : nat) : map Ropp (repeat 0 n) = repeat 0 n.
Proof.
  induction n as [| n IH]; simpl; [reflexivity |].
  rewrite IH. f_equal. ring.
Qed.

Lemma vadd_zero (n : nat) : vadd (repeat 0 n) (repeat 0 n) = repeat 0 n.
Proof.
  unfold vadd. induction n as [| n IH]; simpl; [reflexivity |].
  rewrite IH. f_equal. ring.
Qed.

Lemma position_zero_angles (l : vec) :
  map (fun f => INR 0 * f) l = repeat 0 (length l).
Proof.
  induction l as [| f l IH]; simpl; [reflexivity |].
  simpl in IH. rewrite IH. f_equal. ring.
Qed.

(** The function applied to the zero vector in the place of its parameter
    [t] returns the zero vector, whatever is passed for [pos]. *)
Lemma rotary_row_of_zero (h : nat) (q : vec) :
  (0 < h)%nat -> length q = (h + h)%nat ->
  apply_rotary_pos_emb_row q (repeat 0 (h + h)) = Ok (repeat 0 (h + h)).
Proof.
  intros Hh Hq.
  assert (Hrot : rotate_half (repeat 0 (h + h)) = Ok (repeat 0 (h + h))).
  { rewrite repeat_app.
    rewrite rotate_half_app by (rewrite !repeat_length; lia).
    now rewrite map_opp_zero. }
  unfold apply_rotary_pos_emb_row.
  rewrite vmul_ok by (now rewrite repeat_length, length_map). cbn [bind].
  rewrite Hrot. cbn [bind].
  rewrite vmul_ok by (now rewrite repeat_length, length_map). cbn [bind].
  assert (Hz : forall l : vec, length l = (h + h)%nat ->
                 map2 Rmult (repeat 0 (h + h)) l = repeat 0 (h + h)).
  { intros l Hl. rewrite <- Hl. apply map2_mul_zero. }
  rewrite !Hz by (now rewrite length_map).
  rewrite vadd_checked_ok by reflexivity.
  now rewrite vadd_zero.
Qed.

(** X21: as [Attention.forward] calls it, with the queries (or keys) in the
    place of the angles and the angle table in the place of the tensor,
    the rotary step succeeds on every [[b, h, n, d]] input with [n >= 1]
    positions and an even [d >= 2], and returns the zero vector at the
    first position of every head, whatever the queries are. *)
Theorem attention_rotary_call_zeroes_first_position
    (h n : nat) (theta : R) (q : tensor4)
    (Hh : (0 < h)%nat)
    (Hq : Forall (Forall (shaped2 (S n) (h + h))) q) :
  let rotary_emb := RotaryEmbedding.forward (RotaryEmbedding.init (h + h) theta) (S n) in
  exists q',
    Attention.rotate rotary_emb q = Ok q' /\
    Forall (Forall (fun r : tensor2 => hd [] r = repeat 0 (h + h))) q'.
Proof.
  intros rotary_emb.
  assert (Hfreq : length (RotaryEmbedding.inv_freq (RotaryEmbedding.init (h + h) theta)) = h).
  { unfold RotaryEmbedding.init, RotaryEmbedding.arange_step2. simpl.
    rewrite !length_map, length_seq. apply div2_double_succ. }
  assert (Htab : exists rest,
             rotary_emb = repeat 0 (h + h) :: rest /\ length rest = n /\
             Forall (fun p : vec => length p = (h + h)%nat) rest).
  { unfold rotary_emb, RotaryEmbedding.forward. cbn [seq map].
    eexists. split; [f_equal | split].
    - rewrite position_zero_angles, Hfreq. symmetry. apply repeat_app.
    - now rewrite length_map, length_seq.
    - apply Forall_map, Forall_forall. intros i _.
      now rewrite length_app, !length_map, Hfreq. }
  destruct Htab as (rest & -> & Hrest & Frest).
  assert (Hone : forall t_bh : tensor2, shaped2 (S n) (h + h) t_bh ->
             exists r, apply_rotary_pos_emb t_bh (repeat 0 (h + h) :: rest) = Ok r /\
                       hd [] r = repeat 0 (h + h)).
  { intros t_bh [Hlen Ft]. destruct t_bh as [| q0 t_bh]; [discriminate |].
    apply Forall_cons_iff in Ft. destruct Ft as [Hq0 Ft].
    cbn [apply_rotary_pos_emb].
    rewrite (rotary_row_of_zero h q0 Hh Hq0). cbn [bind].
    destruct (rotary_table_ok (h + h) t_bh rest) as (rs & ->);
      [lia
      | simpl in Hlen; injection Hlen as Hlen; exact (eq_trans Hlen (eq_sym Hrest))
      | assumption | assumption |].
    eexists. split; reflexivity. }
  unfold Attention.rotate.
  induction Hq as [| qb q Hb _ IH].
  - exists []. split; [reflexivity | constructor].
  - destruct IH as (q' & Eq' & Fq').
    assert (Hrow : exists rb,
               mapM (fun t_bh : tensor2 =>
                       apply_rotary_pos_emb t_bh (repeat 0 (h + h) :: rest)) qb = Ok rb /\
               Forall (fun r : tensor2 => hd [] r = repeat 0 (h + h)) rb).
    { clear - Hb Hone. induction Hb as [| t_bh qb Ht _ IH].
      - exists []. split; [reflexivity | constructor].
      - destruct IH as (rb & Erb & Frb).
        destruct (Hone t_bh Ht) as (r & Er & Hr).
        exists (r :: rb). split; [| constructor; assumption].
        cbn [mapM]. rewrite Er. cbn [bind]. now rewrite Erb. }
    destruct Hrow as (rb & Erb & Frb).
    exists (rb :: q'). split; [| constructor; assumption].
    cbn [mapM]. rewrite Erb. cbn [bind]. now rewrite Eq'.
Qed.

Lemma attention_rotary_call_zeroes_first_position_witness :
  let rotary_emb := RotaryEmbedding.forward (RotaryEmbedding.init (1 + 1) 10000) 1 in
  exists q',
    Attention.rotate rotary_emb [[[[3; 4]]]] = Ok q' /\
    Forall (Forall (fun r : tensor2 => hd [] r = repeat 0 (1 + 1))) q'.
Proof.
  apply (attention_rotary_call_zeroes_first_position 1 0 10000 [[[[3; 4]]]]).
  - lia.
  - repeat constructor.
Defined.

(** ** A prediction equal to the target *)

Lemma mean_zero (l : list R) : Forall (fun v => v = 0) l -> mean l = 0.
Proof.
  intros F. unfold mean.
  assert (H : sum l = 0) by (induction F as [| v l Hv _ IH]; simpl; lra).
  rewrite H. unfold Rdiv. apply Rmult_0_l.
Qed.

Lemma map2_diag_zero (f : R -> R -> R) (v : vec) :
  (forall u, f u u = 0) -> Forall (fun w => w = 0) (map2 f v v).
Proof.
  intros Hf. induction v as [| u v IH]; simpl; constructor; [apply Hf | exact IH].
Qed.

Lemma flatten_diag_zero (f : R -> R -> R) (x : tensor3) :
  (forall u, f u u = 0) -> Forall (fun w => w = 0) (flatten (elementwise f x x)).
Proof.
  intros Hf. unfold flatten, elementwise.
  induction x as [| r x IH]; simpl; [constructor |].
  apply Forall_app. split; [| exact IH].
  clear IH. induction r as [| v r IHr]; simpl; [constructor |].
  apply Forall_app. split; [now apply map2_diag_zero | exact IHr].
Qed.

Lemma masked_diag_zero (f : R -> R -> R) (x : tensor3) (mask : list (list bool)) :
  (forall u, f u u = 0) ->
  Forall (fun w => w = 0) (masked_per_example (elementwise f x x) mask).
Proof.
  intros Hf. unfold masked_per_example, masked_fill, elementwise, mask_sum, clamp_min.
  revert mask. induction x as [| r x IH]; intros [| mrow mask]; simpl;
    try constructor; [| apply IH].
  assert (H : sum (map2 (fun l (m : bool) => if m then 0 else l)
                     (map mean (map2 (map2 f) r r)) mrow) = 0).
  { clear IH. revert mrow. induction r as [| v r IHr]; intros [| m mrow]; simpl;
      try reflexivity.
    rewrite IHr. destruct m; [lra |].
    rewrite (mean_zero _ (map2_diag_zero f v Hf)). lra. }
  rewrite H. unfold Rdiv. apply Rmult_0_l.
Qed.

(** X22: when the prediction equals the target both models' losses are 0,
    without a mask and with any mask. *)
Theorem loss_zero_at_target (x : tensor3) (mask : option (list (list bool))) :
  DurationPredictor.loss_of x (Some x) mask = Ok (Loss 0) /\
  VoiceBox.loss_of x (Some x) mask = Loss 0.
Proof.
  assert (Ha : forall u, abs_err u u = 0)
    by (intros u; unfold abs_err; rewrite Rminus_diag; apply Rabs_R0).
  assert (Hs : forall u, sq_err u u = 0) by (intros u; unfold sq_err; ring).
  unfold DurationPredictor.loss_of, VoiceBox.loss_of, masked_loss, mean_loss.
  destruct mask as [m |].
  - now rewrite (mean_zero _ (masked_diag_zero abs_err x m Ha)),
      (mean_zero _ (masked_diag_zero sq_err x m Hs)).
  - now rewrite (mean_zero _ (flatten_diag_zero abs_err x Ha)),
      (mean_zero _ (flatten_diag_zero sq_err x Hs)).
Qed.

(** ** Splitting the joint projection into queries, keys and values *)

(** X23: [chunk(3)] as unpacked by [Attention.forward]: whenever it
    returns three chunks they are consecutive parts of the vector, and on
    a vector of [3 * c] entries it returns three chunks of [c] entries
    each. *)
Theorem chunk3_parts (v : vec) :
  (forall q k w, chunk3 v = Ok (q, k, w) -> q ++ k ++ w = v) /\
  (forall c, length v = (3 * c)%nat ->
     exists q k w, chunk3 v = Ok (q, k, w) /\
       length q = c /\ length k = c /\ length w = c).
Proof.
  split.
  - intros q k w H. unfold chunk3 in H.
    remember ((length v + 2) / 3)%nat as c eqn:Ec. clear Ec.
    destruct (_ || _)%bool; [| discriminate].
    injection H as <- <- <-.
    cbn [Nat.mul]. rewrite Nat.add_0_r, <- skipn_skipn, firstn_skipn.
    apply firstn_skipn.
  - intros c Hc. unfold chunk3.
    assert (Hdiv : ((length v + 2) / 3 = c)%nat).
    { rewrite Hc. symmetry. apply (Nat.div_unique (3 * c + 2) 3 c 2); lia. }
    rewrite Hdiv.
    assert (Hcond : ((length v =? 0)%nat || (2 * c <? length v)%nat)%bool = true).
    { destruct c as [| c].
      - rewrite Hc. reflexivity.
      - apply orb_true_iff. right. apply Nat.ltb_lt. lia. }
    rewrite Hcond. eexists. eexists. eexists. split; [reflexivity |].
    rewrite !length_firstn, !length_skipn. lia.
Qed.

Lemma chunk3_parts_witness :
  exists q k w, chunk3 [1; 2; 3; 4; 5; 6] = Ok (q, k, w) /\
    length q = 2%nat /\ length k = 2%nat /\ length w = 2%nat.
Proof.
  apply (chunk3_parts [1; 2; 3; 4; 5; 6]). reflexivity.
Defined.
